(** * rpm-limiter: the windowed call counter and its scoped timer

    A shallow embedding of [lib/index.ts] (and of the variant of
    [initRatePerMinuteLimiter] in the repository's second copy of the
    library) together with the properties the specification states about
    them.

    Numbers.  JavaScript's numbers are binary64 floats.  [rpm],
    [minuteMs], [count] and the readings of [Date.now()] are whole
    numbers, and binary64 adds, subtracts and compares whole numbers
    exactly as long as they stay below 2^53 in absolute value.  The
    generator is embedded twice: on [Z] (module [Tracker]), for the
    properties that do not depend on the size of the numbers, and on
    binary64 (module [Tracker64]), as the code runs.  The two agree on
    every run whose numbers stay below 2^53 ([nexts_exact]), and beyond
    it they differ; the properties that give a value or a bound of
    [remainder] are stated of the binary64 generator, with that
    condition as a hypothesis.  [roundMiliseconds] is applied to
    fractions; it is embedded on binary64 only. *)

From Stdlib Require Import ZArith Lia List Bool Floats.
From stdpp Require Import base option list gmap.
Import ListNotations.

Local Open Scope Z_scope.

(** ** The clock

    [Date.now()] is the only input of the generator.  The clock is the
    sequence of values the successive calls of [Date.now()] return, and a
    cursor that counts the calls made so far. *)

Record Clock : Type := mkClock {
  readings : nat -> Z;
  cursor : nat
}.

Definition tick (c : Clock) : Clock :=
  {| readings := readings c; cursor := S (cursor c) |}.

(** A computation that may read the clock. *)
Definition Timed (A : Type) : Type := Clock -> A * Clock.

Definition tret {A} (a : A) : Timed A := fun c => (a, c).

Definition tbind {A B} (m : Timed A) (k : A -> Timed B) : Timed B :=
  fun c => let (a, c') := m c in k a c'.

Declare Scope timed_scope.
Delimit Scope timed_scope with timed.
Notation "'let!' x ':=' m 'in' k" := (tbind m (fun x => k))
  (at level 10, x name, m at level 100, k at level 200) : timed_scope.

Definition Date_now : Timed Z :=
  fun c => (readings c (cursor c), tick c).

(** ** initTimeUntilNextMinute *)

Module Tracker.

(** The generator's local variables [start] and [count]. *)
Record Locals : Type := mkLocals {
  start : Z;
  count : Z
}.

(** A generator object is either suspended at the start of its body (no
    statement has run yet, [start] and [count] do not exist) or suspended
    at the [yield] inside the loop. *)
Inductive GenState : Type :=
| SuspendedStart
| SuspendedYield (l : Locals).

(** The immediately invoked arrow function that is the operand of
    [yield]: lines 48-62.  It returns the yielded value and the locals as
    it leaves them. *)
Definition body (rpm minuteMs : Z) (l : Locals) : Timed (Z * Locals) :=
  (let end_ := start l + minuteMs in
   let! now := Date_now in
   let remainder := end_ - now in
   let! l1 := (if remainder <? 0
               then (let! now' := Date_now in
                     tret {| start := now'; count := 1 |})
               else tret l) in
   let l2 := {| start := start l1; count := count l1 + 1 |} in
   if count l2 >? rpm
   then tret (remainder, l2)
   else tret (0, l2))%timed.

(** What runs before the loop is entered: [let start = Date.now()] and
    [let count = 1] on the first call of [next()], nothing on the later
    ones. *)
Definition resume (g : GenState) : Timed Locals :=
  match g with
  | SuspendedStart => (let! now := Date_now in tret {| start := now; count := 1 |})%timed
  | SuspendedYield l => tret l
  end.

(** The default value of the parameter [minuteMs]. *)
Definition default_minuteMs : Z := 60000.

(** [generator.next().value]. *)
Definition next (rpm minuteMs : Z) (g : GenState) : Timed (Z * GenState) :=
  (let! l := resume g in
   let! r := body rpm minuteMs l in
   tret (fst r, SuspendedYield (snd r)))%timed.

(** [n] successive calls of [next()], with the values they yield. *)
Fixpoint nexts (n : nat) (rpm minuteMs : Z) (g : GenState)
  : Timed (list Z * GenState) :=
  match n with
  | O => tret ([], g)
  | S n' =>
      (let! r := next rpm minuteMs g in
       let! rs := nexts n' rpm minuteMs (snd r) in
       tret (fst r :: fst rs, snd rs))%timed
  end.

(** The guard of line 51, evaluated for the call of [next()] that starts
    in state [g] with clock [c]: does this call reset the window? *)
Definition resets (minuteMs : Z) (g : GenState) (c : Clock) : bool :=
  let (l, c1) := resume g c in
  let (now, _) := Date_now c1 in
  start l + minuteMs - now <? 0.

(** The value of [remainder] in that call. *)
Definition remainder_of (minuteMs : Z) (g : GenState) (c : Clock) : Z :=
  let (l, c1) := resume g c in
  let (now, _) := Date_now c1 in
  start l + minuteMs - now.

(** The locals after that call. *)
Definition locals_after (rpm minuteMs : Z) (g : GenState) (c : Clock) : Locals :=
  let (l, c1) := resume g c in
  snd (fst (body rpm minuteMs l c1)).

(** Is the reading line 49 takes in that call at least the reading
    [start] was last set from? *)
Definition read_after_start (g : GenState) (c : Clock) : bool :=
  let (l, c1) := resume g c in
  let (now, _) := Date_now c1 in
  start l <=? now.

(** The same for each of [n] successive calls. *)
Fixpoint reads_after_start (n : nat) (rpm minuteMs : Z) (g : GenState)
    (c : Clock) : bool :=
  match n with
  | O => true
  | S n' =>
      read_after_start g c &&
      (let (r, c') := next rpm minuteMs g c in
       reads_after_start n' rpm minuteMs (snd r) c')
  end.

End Tracker.

(** ** The Window Tracker as the specification words it (section 4.1) *)

Module SpecTracker.

Record WindowState : Type := mkWindowState {
  windowStartTime : Z;
  callCount : Z
}.

(** Steps 1 to 6 of the contract.  [now] is the clock's sequence of
    readings and [k] the number of readings taken before the invocation;
    the result is the returned wait, the state, and the number of
    readings taken after the invocation. *)
Definition next_delay (limit windowDurationMs : Z) (now : nat -> Z)
    (s : WindowState) (k : nat) : Z * WindowState * nat :=
  let windowEnd := windowStartTime s + windowDurationMs in
  let remaining := windowEnd - now k in
  let '(s3, k3) :=
    if remaining <? 0
    then ({| windowStartTime := now (S k); callCount := 1 |}, S (S k))
    else (s, S k) in
  let s4 := {| windowStartTime := windowStartTime s3;
               callCount := callCount s3 + 1 |} in
  if callCount s4 >? limit then (remaining, s4, k3) else (0, s4, k3).

End SpecTracker.

(** The two state types correspond field by field. *)
Definition to_spec (l : Tracker.Locals) : SpecTracker.WindowState :=
  {| SpecTracker.windowStartTime := Tracker.start l;
     SpecTracker.callCount := Tracker.count l |}.

Definition of_spec (s : SpecTracker.WindowState) : Tracker.Locals :=
  {| Tracker.start := SpecTracker.windowStartTime s;
     Tracker.count := SpecTracker.callCount s |}.

(** A clock that shows [t] at every reading. *)
Definition stopped_clock (t : Z) : Clock :=
  {| readings := fun _ => t; cursor := 0 |}.

(** A clock whose readings are the elements of [ts], and the last of
    them (or [0]) from then on. *)
Definition clock_of (ts : list Z) : Clock :=
  {| readings := fun i => nth i ts (List.last ts 0); cursor := 0 |}.

(** ** The runtime: the clock, Node's timers, and the objects of one limiter *)

(** A generator object: the arguments its body closes over, and where it
    is suspended. *)
Record Generator : Type := mkGenerator {
  g_rpm : Z;
  g_minuteMs : Z;
  g_state : Tracker.GenState
}.

(** [timers] holds the timeouts that are scheduled and have neither fired
    nor been cleared, each with the delay it was created with; a
    [Timeout] object is identified by its creation index.  [resolved]
    holds the promises whose [resolve] has been called; the promise made
    by [waitFor] is identified with the timeout it schedules.
    [timeoutId] is the variable [initWaitFor] declares and its two
    closures share.  [generators] is the store of the generator objects
    created so far; a closure made by [createRateLimiter] holds the index
    of its generator. *)
Record World : Type := mkWorld {
  clock : Clock;
  timers : gmap nat Z;
  created : nat;
  resolved : gset nat;
  timeoutId : option nat;
  generators : list Generator
}.

(** A computation on the world.  Nothing in the source throws; [None]
    is the model's answer to a reference that no closure of the program
    can hold (a generator index that was never allocated, a timeout that
    is not scheduled). *)
Definition Run (A : Type) : Type := World -> option (A * World).

Definition rret {A} (a : A) : Run A := fun w => Some (a, w).

Definition rbind {A B} (m : Run A) (k : A -> Run B) : Run B :=
  fun w => match m w with
           | Some (a, w') => k a w'
           | None => None
           end.

Declare Scope run_scope.
Delimit Scope run_scope with run.
Notation "'let!' x ':=' m 'in' k" := (rbind m (fun x => k))
  (at level 10, x name, m at level 100, k at level 200) : run_scope.

(** What a run returned, and the world it left. *)
Definition result {A} (r : option (A * World)) : option A := fst <$> r.

Definition world_after {A} (r : option (A * World)) : option World :=
  snd <$> r.

(** [setTimeout(resolve, ms)]: a new timeout is scheduled. *)
Definition setTimeout (ms : Z) : Run nat :=
  fun w =>
    let id := created w in
    Some (id, {| clock := clock w; timers := <[id := ms]> (timers w);
                 created := S id; resolved := resolved w;
                 timeoutId := timeoutId w; generators := generators w |}).

(** [clearTimeout(id)]: the timeout is unscheduled; clearing one that has
    fired or was cleared before does nothing. *)
Definition clearTimeout (id : nat) : Run unit :=
  fun w =>
    Some (tt, {| clock := clock w; timers := delete id (timers w);
                 created := created w; resolved := resolved w;
                 timeoutId := timeoutId w; generators := generators w |}).

(** The event loop runs a scheduled timeout: it leaves the table and its
    callback, [resolve], is called. *)
Definition fire (id : nat) : Run unit :=
  fun w =>
    match timers w !! id with
    | Some _ =>
        Some (tt, {| clock := clock w; timers := delete id (timers w);
                     created := created w;
                     resolved := {[ id ]} ∪ resolved w;
                     timeoutId := timeoutId w; generators := generators w |})
    | None => None
    end.

(** ** initWaitFor *)

Module WaitFor.

Definition set_timeoutId (v : option nat) : Run unit :=
  fun w =>
    Some (tt, {| clock := clock w; timers := timers w; created := created w;
                 resolved := resolved w; timeoutId := v;
                 generators := generators w |}).

(** [initWaitFor()]: [let timeoutId = null]. *)
Definition initWaitFor : Run unit := set_timeoutId None.

(** [waitFor(ms)] up to the point where the promise is returned: the
    executor of the promise has run, line 82.  The result is the
    promise. *)
Definition waitFor (ms : Z) : Run nat :=
  (let! id := setTimeout ms in
   let! _ := set_timeoutId (Some id) in
   rret id)%run.

(** [clearWaitFor()], lines 84-88. *)
Definition clearWaitFor : Run unit :=
  fun w =>
    match timeoutId w with
    | Some id => clearTimeout id w
    | None => rret tt w
    end.

(** What can happen to an executor. *)
Inductive Event : Type :=
| EWait (ms : Z)
| ECancel
| EFire (id : nat).

Definition step (e : Event) : Run unit :=
  match e with
  | EWait ms => (let! _ := waitFor ms in rret tt)%run
  | ECancel => clearWaitFor
  | EFire id => fire id
  end.

Fixpoint steps (es : list Event) : Run unit :=
  match es with
  | [] => rret tt
  | e :: es' => (let! _ := step e in steps es')%run
  end.

End WaitFor.

(** ** initRatePerMinuteLimiter *)

(** [timeoutGenerator.next().value] on the generator stored at [h]. *)
Definition generator_next (h : nat) : Run Z :=
  fun w =>
    match generators w !! h with
    | Some g =>
        let '(v, st, c) :=
          Tracker.next (g_rpm g) (g_minuteMs g) (g_state g) (clock w) in
        Some (v, {| clock := c; timers := timers w; created := created w;
                    resolved := resolved w; timeoutId := timeoutId w;
                    generators :=
                      <[h := {| g_rpm := g_rpm g; g_minuteMs := g_minuteMs g;
                                g_state := st |}]> (generators w) |})
    | None => None
    end.

(** [initTimeUntilNextMinute(rpm, minuteMs)]: a generator object is
    created; none of its body runs. *)
Definition new_generator (rpm minuteMs : Z) : Run nat :=
  fun w =>
    Some (length (generators w),
          {| clock := clock w; timers := timers w; created := created w;
             resolved := resolved w; timeoutId := timeoutId w;
             generators := generators w ++
               [{| g_rpm := rpm; g_minuteMs := minuteMs;
                   g_state := Tracker.SuspendedStart |}] |}).

(** The async arrow function both variants return as the limiting
    operation, for the generator at [h]: the delay is taken from the
    generator and [waitFor] is called with it.  The result is the delay
    and the promise that is awaited. *)
Definition rateLimiter_call (h : nat) : Run (Z * nat) :=
  (let! timeout := generator_next h in
   let! p := WaitFor.waitFor timeout in
   rret (timeout, p))%run.

(** The delay a call of the limiting operation would take from its
    generator in world [w]. *)
Definition delay_of_call (h : nat) (w : World) : option Z :=
  (fun r => fst (fst r)) <$> rateLimiter_call h w.

(** [await rateLimiter()] by a caller that is resumed when the timeout
    fires. *)
Definition await_rateLimiter (h : nat) : Run Z :=
  (let! r := rateLimiter_call h in
   let! _ := fire (snd r) in
   rret (fst r))%run.

(** [n] awaited calls of one limiting operation, with the delays. *)
Fixpoint await_n (n : nat) (h : nat) : Run (list Z) :=
  match n with
  | O => rret []
  | S n' =>
      (let! v := await_rateLimiter h in
       let! vs := await_n n' h in
       rret (v :: vs))%run
  end.

(** The world in which a limiter is initialised: nothing scheduled, no
    generator, and [let timeoutId = null] just executed. *)
Definition fresh_world (c : Clock) : World :=
  {| clock := c; timers := ∅; created := 0%nat; resolved := ∅;
     timeoutId := None; generators := [] |}.

(** The world right after a first [waitFor(ms)] in a new executor. *)
Definition waiting_world (ms : Z) (c : Clock) : World :=
  {| clock := c; timers := {[ 0%nat := ms ]}; created := 1%nat; resolved := ∅;
     timeoutId := Some 0%nat; generators := [] |}.

(** [lib/index.ts], lines 126-148. *)
Module Lib.

(** The object [initRatePerMinuteLimiter] returns: its closures hold
    [rpm] and [minuteMs]; [waitFor] and [clearWaitFor] act on the
    world's [timeoutId]. *)
Record Limiter : Type := mkLimiter {
  rpm : Z;
  minuteMs : Z
}.

Definition initRatePerMinuteLimiter (rpm minuteMs : Z) : Run Limiter :=
  (let! _ := WaitFor.initWaitFor in
   rret {| rpm := rpm; minuteMs := minuteMs |})%run.

(** [createRateLimiter()]: a generator is created and the operation
    bound to it is returned. *)
Definition createRateLimiter (l : Limiter) : Run nat :=
  new_generator (rpm l) (minuteMs l).

(** The getter [rateLimiter]: every read of the property runs it. *)
Definition get_rateLimiter (l : Limiter) : Run nat :=
  createRateLimiter l.

Definition clear (l : Limiter) : Run unit :=
  WaitFor.clearWaitFor.

(** [await limiter.rateLimiter()], [n] times: the property is read at
    every call. *)
Fixpoint await_by_access (n : nat) (l : Limiter) : Run (list Z) :=
  match n with
  | O => rret []
  | S n' =>
      (let! h := get_rateLimiter l in
       let! v := await_rateLimiter h in
       let! vs := await_by_access n' l in
       rret (v :: vs))%run
  end.

(** [const { rateLimiter } = limiter] and then [await rateLimiter()],
    [n] times: the property is read once. *)
Definition await_by_binding (n : nat) (l : Limiter) : Run (list Z) :=
  (let! h := get_rateLimiter l in await_n n h)%run.

End Lib.

(** The variant of [initRatePerMinuteLimiter] in the repository's second
    copy of the library (lines 92-106 there), which creates its generator
    when the limiter is initialised. *)
Module Eager.

Record Limiter : Type := mkLimiter {
  timeoutGenerator : nat
}.

Definition initRatePerMinuteLimiter (rpm minuteMs : Z) : Run Limiter :=
  (let! _ := WaitFor.initWaitFor in
   let! h := new_generator rpm minuteMs in
   rret {| timeoutGenerator := h |})%run.

(** The data property [rateLimiter]: reading it runs no code. *)
Definition get_rateLimiter (l : Limiter) : Run nat :=
  rret (timeoutGenerator l).

Definition clear (l : Limiter) : Run unit :=
  WaitFor.clearWaitFor.

Fixpoint await_by_access (n : nat) (l : Limiter) : Run (list Z) :=
  match n with
  | O => rret []
  | S n' =>
      (let! h := get_rateLimiter l in
       let! v := await_rateLimiter h in
       let! vs := await_by_access n' l in
       rret (v :: vs))%run
  end.

End Eager.

(** ** roundMiliseconds *)

(** On binary64, as JavaScript computes it. *)
Module F64.

Local Open Scope float_scope.

Definition two52 : float := 4503599627370496.

(** The largest integer not above [x].  Below 2^52 in absolute value,
    adding and subtracting 2^52 rounds to an integer, which is then
    corrected downwards; from 2^52 on every float is an integer. *)
Definition floor (x : float) : float :=
  if abs x <? two52 then
    let r := if 0 <=? x then (x + two52) - two52 else (x - two52) + two52 in
    if x <? r then r - 1 else r
  else x.

(** [Math.round]: the nearest integer, a tie going towards +infinity; a
    zero keeps its sign, and so does a result that rounds to zero from
    below. *)
Definition Math_round (x : float) : float :=
  if x =? 0 then x
  else
    let f := floor x in
    let r := if (x - f) <? 0.5 then f else f + 1 in
    if (r =? 0) && (x <? 0) then neg_zero else r.

Definition roundMiliseconds (ms nearestMs : float) : float :=
  Math_round (ms / nearestMs) * nearestMs.

(** The number the literal [666.666] denotes. *)
Definition lit_666_666 : float := 0x1.4d553f7ced917p+9.

(** [roundMiliseconds(roundMiliseconds(x, m), m) == roundMiliseconds(x, m)]. *)
Definition idempotent_at (x m : float) : bool :=
  roundMiliseconds (roundMiliseconds x m) m =? roundMiliseconds x m.

(** A whole number of milliseconds as a float (exact below 2^53). *)
Definition of_nat (n : nat) : float := of_uint63 (Uint63.of_Z (Z.of_nat n)).

End F64.

(** ** Runs of the generator *)

Module Window.

Import Tracker.

(** Do the readings the next [n] calls compare with the window end all
    lie at or before it, so that none of these calls resets? *)
Definition within (minuteMs : Z) (l : Locals) (c : Clock) (n : nat) : bool :=
  forallb (fun i => 0 <=? start l + minuteMs - readings c (cursor c + i)%nat)
          (seq 0 n).

(** The value of [remainder] in each of [n] successive calls. *)
Fixpoint remainders (n : nat) (rpm minuteMs : Z) (g : GenState) (c : Clock)
  : list Z :=
  match n with
  | O => []
  | S n' =>
      remainder_of minuteMs g c ::
      (let (r, c') := next rpm minuteMs g c in
       remainders n' rpm minuteMs (snd r) c')
  end.

End Window.

(** ** Worlds that runs can reach *)

(** Timeouts are numbered as they are created, so the scheduled ones and
    the ones whose promise is resolved are among the first [created w]. *)
Definition ids_below_created (w : World) : Prop :=
  (forall id : nat, is_Some (timers w !! id) -> (id < created w)%nat) /\
  (forall id : nat, id ∈ resolved w -> (id < created w)%nat).

(** What holds of a wait that has been cancelled, from then on: its
    timeout is not scheduled, no later timeout gets its number, and its
    promise is not resolved. *)
Definition cancelled (id : nat) (w : World) : Prop :=
  (id < created w)%nat /\ timers w !! id = None /\ id ∉ resolved w.

(** The world of a limiter of which [n] operations have been obtained and
    none has been called. *)
Definition limiter_world (n : nat) (rpm minuteMs : Z) (c : Clock) : World :=
  {| clock := c; timers := ∅; created := 0%nat; resolved := ∅;
     timeoutId := None;
     generators := repeat {| g_rpm := rpm; g_minuteMs := minuteMs;
                             g_state := Tracker.SuspendedStart |} n |}.

(** ** Whole milliseconds *)

Module Whole.

(** An integer as a float (exact below 2^53 in absolute value). *)
Definition float_of_Z (z : Z) : float :=
  if z <? 0
  then (- of_uint63 (Uint63.of_Z (- z)))%float
  else of_uint63 (Uint63.of_Z z).

(** The whole multiple of [m] nearest to [x], the upper one when two are
    equally near. *)
Definition nearest_multiple (x m : Z) : Z := m * ((2 * x + m) / (2 * m)).

(** Is [roundMiliseconds(x, m)] that multiple, as the same float? *)
Definition agrees_at (x m : nat) : bool :=
  PrimFloat.Leibniz.eqb
    (F64.roundMiliseconds (F64.of_nat x) (F64.of_nat m))
    (float_of_Z (nearest_multiple (Z.of_nat x) (Z.of_nat m))).

Definition agrees_upto (X M : nat) : bool :=
  forallb (fun x => forallb (fun m => agrees_at x (S m)) (seq 0 M))
          (seq 0 (S X)).

End Whole.

(** ** The test of the generator (the [timerGenerator] suite) *)

Module GeneratorTest.

Definition MS_PER_MINUTE : Z := 250.

(** [getNextTimeout()] on the suite's generator,
    [initTimeUntilNextMinute(3, MS_PER_MINUTE)]. *)
Definition getNextTimeout (g : Tracker.GenState)
  : Timed (float * Tracker.GenState) :=
  (let! r := Tracker.next 3 MS_PER_MINUTE g in
   tret (F64.roundMiliseconds (Whole.float_of_Z (fst r)) 5, snd r))%timed.

(** The three tests in their order, on a new generator: the values the
    four [expect] calls receive.  The [await waitFor(MS_PER_MINUTE)] of
    the second test only lets time pass between the fourth and the fifth
    call. *)
Definition received : Timed (list float) :=
  (let! r1 := getNextTimeout Tracker.SuspendedStart in
   let! r2 := getNextTimeout (snd r1) in
   let! r3 := getNextTimeout (snd r2) in
   let! r4 := getNextTimeout (snd r3) in
   let! r5 := getNextTimeout (snd r4) in
   let! r6 := getNextTimeout (snd r5) in
   let! r7 := getNextTimeout (snd r6) in
   tret [fst r4; fst r5; fst r6; fst r7])%timed.

(** What the four [expect] calls compare with. *)
Definition expected : list float := [250; 0; 0; 250]%float.

End GeneratorTest.

(** ** Sessions with a limiter *)

Module Session.

(** What the holder of a limiter of [lib/index.ts] and the event loop can
    do, in any order: read the [rateLimiter] property, call an operation
    obtained before (without necessarily awaiting it), call [clear()],
    and run a scheduled timeout. *)
Inductive Action : Type :=
| Access
| Call (h : nat)
| Clear
| Fire (id : nat).

Definition act (l : Lib.Limiter) (a : Action) : Run unit :=
  match a with
  | Access => (let! _ := Lib.get_rateLimiter l in rret tt)%run
  | Call h => (let! _ := rateLimiter_call h in rret tt)%run
  | Clear => Lib.clear l
  | Fire id => fire id
  end.

Fixpoint acts (l : Lib.Limiter) (s : list Action) : Run unit :=
  match s with
  | [] => rret tt
  | a :: s' => (let! _ := act l a in acts l s')%run
  end.

(** The recorded handle is that of the timeout created last, and there
    is none as long as no timeout has been created. *)
Definition handle_is_latest (w : World) : Prop :=
  timeoutId w = match created w with
                | O => None
                | S k => Some k
                end.

End Session.

(** ** Whole numbers as binary64 values *)

Module Int53.

(** The whole numbers binary64 holds without gaps. *)
Definition small (z : Z) : Prop := Z.abs z < 2 ^ 53.

Definition smallb (z : Z) : bool := Z.abs z <? 2 ^ 53.

(** The exponent and the 53-bit mantissa of a whole number that is not
    zero, and the number as [SpecFloat] has it. *)
Definition expo (z : Z) : Z := Z.log2 (Z.abs z) - 52.

Definition mant (z : Z) : positive := Z.to_pos (Z.abs z * 2 ^ (- expo z)).

Definition canonZ (z : Z) : spec_float :=
  match z with
  | Z0 => S754_zero false
  | Zpos _ => S754_finite false (mant z) (expo z)
  | Zneg _ => S754_finite true (mant z) (expo z)
  end.

(** A float that is zero, of either sign. *)
Definition is_zero (x : float) : Prop := x = 0%float \/ x = neg_zero.

(** The float [y] is the whole number [z]; the zero may have either
    sign. *)
Definition whole (y : float) (z : Z) : Prop :=
  y = Whole.float_of_Z z \/ (z = 0 /\ y = neg_zero).

End Int53.

(** ** initTimeUntilNextMinute on binary64

    The generator as JavaScript runs it: [rpm], [minuteMs], [start],
    [count], [end] and [remainder] are binary64 numbers, and every sum
    and difference is rounded to the nearest of them.  [Date.now()]
    returns a whole number of milliseconds. *)

Module Tracker64.

Local Open Scope float_scope.

Record Locals : Type := mkLocals {
  start : float;
  count : float
}.

Inductive GenState : Type :=
| SuspendedStart
| SuspendedYield (l : Locals).

Definition Date_now : Timed float :=
  fun c => (Whole.float_of_Z (readings c (cursor c)), tick c).

(** Lines 48-62. *)
Definition body (rpm minuteMs : float) (l : Locals) : Timed (float * Locals) :=
  (let end_ := start l + minuteMs in
   let! now := Date_now in
   let remainder := end_ - now in
   let! l1 := (if remainder <? 0
               then (let! now' := Date_now in
                     tret {| start := now'; count := 1 |})
               else tret l) in
   let l2 := {| start := start l1; count := count l1 + 1 |} in
   if rpm <? count l2
   then tret (remainder, l2)
   else tret (0, l2))%timed.

Definition resume (g : GenState) : Timed Locals :=
  match g with
  | SuspendedStart => (let! now := Date_now in tret {| start := now; count := 1 |})%timed
  | SuspendedYield l => tret l
  end.

(** [generator.next().value]. *)
Definition next (rpm minuteMs : float) (g : GenState) : Timed (float * GenState) :=
  (let! l := resume g in
   let! r := body rpm minuteMs l in
   tret (fst r, SuspendedYield (snd r)))%timed.

Fixpoint nexts (n : nat) (rpm minuteMs : float) (g : GenState)
  : Timed (list float * GenState) :=
  match n with
  | O => tret ([], g)
  | S n' =>
      (let! r := next rpm minuteMs g in
       let! rs := nexts n' rpm minuteMs (snd r) in
       tret (fst r :: fst rs, snd rs))%timed
  end.

(** Is the reading line 49 takes in the call of [next()] that starts in
    state [g] with clock [c] at least the reading [start] was last set
    from? *)
Definition read_after_start (g : GenState) (c : Clock) : bool :=
  let (l, c1) := resume g c in
  let (now, _) := Date_now c1 in
  start l <=? now.

(** The same for each of [n] successive calls. *)
Fixpoint reads_after_start (n : nat) (rpm minuteMs : float) (g : GenState)
    (c : Clock) : bool :=
  match n with
  | O => true
  | S n' =>
      read_after_start g c &&
      (let (r, c') := next rpm minuteMs g c in
       reads_after_start n' rpm minuteMs (snd r) c')
  end.

(** A state with whole numbers in its variables. *)
Definition of_locals (l : Tracker.Locals) : Locals :=
  {| start := Whole.float_of_Z (Tracker.start l);
     count := Whole.float_of_Z (Tracker.count l) |}.

Definition of_state (g : Tracker.GenState) : GenState :=
  match g with
  | Tracker.SuspendedStart => SuspendedStart
  | Tracker.SuspendedYield l => SuspendedYield (of_locals l)
  end.

(** Are the numbers of the call of [next()] that starts in state [g]
    with clock [c] all below 2^53 in absolute value: the arguments, the
    variables, the readings taken, [end], [remainder] and the
    incremented [count]? *)
Definition call_in_range (rpm minuteMs : Z) (g : Tracker.GenState) (c : Clock)
  : bool :=
  let (l, c1) := Tracker.resume g c in
  let now := readings c1 (cursor c1) in
  let remainder := (Tracker.start l + minuteMs - now)%Z in
  forallb Int53.smallb
    [rpm; minuteMs; Tracker.start l; Tracker.count l;
     (Tracker.start l + minuteMs)%Z; now; remainder;
     if (remainder <? 0)%Z then readings c1 (S (cursor c1))
     else (Tracker.count l + 1)%Z].

(** The same for each of [n] successive calls. *)
Fixpoint in_range (n : nat) (rpm minuteMs : Z) (g : Tracker.GenState)
    (c : Clock) : bool :=
  match n with
  | O => true
  | S n' =>
      call_in_range rpm minuteMs g c &&
      (let (r, c') := Tracker.next rpm minuteMs g c in
       in_range n' rpm minuteMs (snd r) c')
  end.

End Tracker64.

(** * Properties *)

(** ** The generator *)

Section TrackerFacts.

Import Tracker.

Variables rpm minuteMs : Z.

(** The body, with its clock readings written out. *)
Lemma body_eq (l : Locals) (c : Clock) :
  body rpm minuteMs l c =
  let now := readings c (cursor c) in
  let remainder := start l + minuteMs - now in
  if remainder <? 0
  then ((if 1 + 1 >? rpm then remainder else 0,
         {| start := readings c (S (cursor c)); count := 1 + 1 |}),
        tick (tick c))
  else ((if count l + 1 >? rpm then remainder else 0,
         {| start := start l; count := count l + 1 |}),
        tick c).
Proof.
  unfold body, tbind, Date_now, tret; cbn.
  destruct (start l + minuteMs - readings c (cursor c) <? 0); cbn.
  - destruct (1 + 1 >? rpm); reflexivity.
  - destruct (count l + 1 >? rpm); reflexivity.
Qed.

Lemma next_eq (g : GenState) (c : Clock) :
  next rpm minuteMs g c =
  let (l, c1) := resume g c in
  let '(v, l', c2) := body rpm minuteMs l c1 in
  ((v, SuspendedYield l'), c2).
Proof.
  unfold next, tbind, tret.
  destruct (resume g c) as [l c1].
  destruct (body rpm minuteMs l c1) as [[v l'] c2]. reflexivity.
Qed.

Lemma next_started (c : Clock) :
  next rpm minuteMs SuspendedStart c =
  next rpm minuteMs
    (SuspendedYield {| start := readings c (cursor c); count := 1 |}) (tick c).
Proof. reflexivity. Qed.

(** The clock only moves forward, and its readings are never changed. *)
Lemma next_readings (g : GenState) (c : Clock) :
  readings (snd (next rpm minuteMs g c)) = readings c.
Proof.
  rewrite next_eq.
  destruct g as [|l]; unfold resume, tbind, Date_now, tret;
    rewrite body_eq; cbn;
    match goal with |- context [if ?b then _ else _] => destruct b end;
    reflexivity.
Qed.

(** A call yields [0] or the remainder it computed. *)
Lemma next_value (g : GenState) (c : Clock) :
  fst (fst (next rpm minuteMs g c)) = 0 \/
  fst (fst (next rpm minuteMs g c)) = remainder_of minuteMs g c.
Proof.
  rewrite next_eq. unfold remainder_of.
  destruct (resume g c) as [l c1] eqn:Hr. rewrite body_eq. cbn.
  destruct (start l + minuteMs - readings c1 (cursor c1) <? 0); cbn.
  - destruct (1 + 1 >? rpm); auto.
  - destruct (count l + 1 >? rpm); auto.
Qed.

(** What a reset leaves behind. *)
Lemma resets_locals (g : GenState) (c : Clock) :
  resets minuteMs g c = true ->
  count (locals_after rpm minuteMs g c) = 2 /\
  start (locals_after rpm minuteMs g c) =
    readings c (S (cursor (snd (resume g c)))).
Proof.
  unfold resets, locals_after.
  destruct g as [|l]; unfold resume, tbind, Date_now, tret;
    rewrite body_eq; cbn; intros H; rewrite H; cbn; auto.
Qed.

End TrackerFacts.

Section TrackerClaims.

Import Tracker.

Variables rpm minuteMs : Z.

(** C3: each invocation of the generator performs the six steps of the
    contract on its state: the remainder is computed from the window
    start, the window length and a reading of the clock; a negative
    remainder sets the count to 1 and the window start to a new reading
    of the clock; the count is incremented; the remainder computed before
    the reset is returned when the count exceeds the limit, and 0
    otherwise.  The very first invocation first creates the state, with
    the window start read from the clock and the count 1. *)
Theorem next_performs_the_contract_steps :
  (forall (l : Locals) (c : Clock),
     next rpm minuteMs (SuspendedYield l) c =
     let '(d, s, k) :=
       SpecTracker.next_delay rpm minuteMs (readings c) (to_spec l) (cursor c) in
     ((d, SuspendedYield (of_spec s)), {| readings := readings c; cursor := k |}))
  /\
  (forall c : Clock,
     next rpm minuteMs SuspendedStart c =
     next rpm minuteMs
       (SuspendedYield {| start := readings c (cursor c); count := 1 |})
       (tick c)).
Proof.
  split; [| apply next_started].
  intros l c. rewrite next_eq. unfold resume, tret.
  rewrite body_eq. unfold SpecTracker.next_delay, to_spec, of_spec. cbn.
  destruct (start l + minuteMs - readings c (cursor c) <? 0); cbn.
  - destruct (1 + 1 >? rpm); reflexivity.
  - destruct (count l + 1 >? rpm); reflexivity.
Qed.

(** C5: an invocation that resets the window and whose incremented count
    exceeds the limit returns the remainder computed before the reset,
    which is negative; and an invocation that returns a negative value
    has reset the window. *)
Theorem over_limit_reset_returns_negative_remainder
    (g : GenState) (c : Clock) :
  (resets minuteMs g c = true ->
   count (locals_after rpm minuteMs g c) > rpm ->
   fst (fst (next rpm minuteMs g c)) = remainder_of minuteMs g c /\
   fst (fst (next rpm minuteMs g c)) < 0)
  /\
  (fst (fst (next rpm minuteMs g c)) < 0 -> resets minuteMs g c = true).
Proof.
  rewrite next_eq. unfold resets, locals_after, remainder_of.
  destruct (resume g c) as [l c1]. rewrite body_eq.
  unfold Date_now. cbn.
  destruct (start l + minuteMs - readings c1 (cursor c1) <? 0) eqn:Hneg; cbn.
  - split; [| reflexivity].
    intros _ Hover. apply Z.ltb_lt in Hneg.
    destruct (1 + 1 >? rpm) eqn:Hgt; cbn.
    + split; [reflexivity | exact Hneg].
    + exfalso. rewrite Z.gtb_ltb in Hgt. apply Z.ltb_ge in Hgt. lia.
  - split; [discriminate |].
    apply Z.ltb_ge in Hneg.
    destruct (count l + 1 >? rpm); cbn; lia.
Qed.

(** C9: with a limit of at least 2 an invocation that resets the window
    returns 0; so a negative value is returned only when the limit is
    below 2. *)
Theorem reset_returns_zero_when_limit_at_least_two
    (g : GenState) (c : Clock) :
  (2 <= rpm -> resets minuteMs g c = true ->
   fst (fst (next rpm minuteMs g c)) = 0)
  /\
  (fst (fst (next rpm minuteMs g c)) < 0 -> rpm < 2).
Proof.
  rewrite next_eq. unfold resets.
  destruct (resume g c) as [l c1]. rewrite body_eq.
  unfold Date_now. cbn.
  destruct (start l + minuteMs - readings c1 (cursor c1) <? 0) eqn:Hneg; cbn.
  - destruct (1 + 1 >? rpm) eqn:Hgt; cbn.
    + rewrite Z.gtb_ltb in Hgt. apply Z.ltb_lt in Hgt. split; lia.
    + split; [reflexivity | lia].
  - apply Z.ltb_ge in Hneg. split; [discriminate |].
    destruct (count l + 1 >? rpm); cbn; lia.
Qed.

(** One call: when the clock has not gone back behind the window start,
    the value is at most the window length. *)
Lemma next_at_most_window (g : GenState) (c : Clock) :
  0 <= minuteMs ->
  read_after_start g c = true ->
  fst (fst (next rpm minuteMs g c)) <= minuteMs.
Proof.
  intros HW. rewrite next_eq. unfold read_after_start.
  destruct (resume g c) as [l c1]. rewrite body_eq.
  unfold Date_now. cbn. intros Hle. apply Z.leb_le in Hle.
  destruct (start l + minuteMs - readings c1 (cursor c1) <? 0); cbn.
  - destruct (1 + 1 >? rpm); cbn; lia.
  - destruct (count l + 1 >? rpm); cbn; lia.
Qed.

(** When every reading the generator compares with the window start is
    at least the reading the window start was set from, every value it
    yields is at most the window length (for a window length that is not
    negative), as long as no sum or difference rounds. *)
Lemma nexts_at_most_window (n : nat) (g : GenState) (c : Clock) :
  0 <= minuteMs ->
  reads_after_start n rpm minuteMs g c = true ->
  Forall (fun v => v <= minuteMs) (fst (fst (nexts n rpm minuteMs g c))).
Proof.
  intros HW. revert g c.
  induction n as [|n IH]; intros g c Hreads; cbn.
  - constructor.
  - cbn in Hreads. apply andb_true_iff in Hreads as [H1 Hn].
    unfold tbind, tret.
    pose proof (next_at_most_window g c HW H1) as Hv.
    destruct (next rpm minuteMs g c) as [r c'].
    specialize (IH (snd r) c' Hn).
    destruct (nexts n rpm minuteMs (snd r) c') as [rs c'']. cbn in *.
    constructor; assumption.
Qed.

(** On a clock that never goes back every reading the generator compares
    with the window start is at least the reading the window start was
    set from. *)
Lemma monotone_reads_after_start (now : nat -> Z) :
  (forall i j : nat, (i <= j)%nat -> now i <= now j) ->
  forall (n : nat) (g : GenState) (k : nat),
    match g with
    | SuspendedStart => True
    | SuspendedYield l => start l <= now k
    end ->
    reads_after_start n rpm minuteMs g {| readings := now; cursor := k |} = true.
Proof.
  intros Hmono. induction n as [|n IH]; intros g k Hinv; [reflexivity |].
  cbn [reads_after_start]. apply andb_true_iff. split.
  - unfold read_after_start.
    destruct g as [|l]; cbn; apply Z.leb_le; [apply Hmono; lia | exact Hinv].
  - rewrite next_eq.
    destruct g as [|l]; unfold resume, tbind, Date_now, tret;
      rewrite body_eq; cbn;
      match goal with |- context [if ?b then _ else _] => destruct b end;
      cbn; apply IH; cbn;
      first [ apply Hmono; lia
            | etransitivity; [exact Hinv | apply Hmono; lia] ].
Qed.

(** While the clock stands still a generator with a window length that
    is not negative never resets, and the call that takes the count
    above the limit is the first to wait: from a count of [k], the first
    [rpm - k] calls yield 0 and the next yields the whole window. *)
Lemma stopped_clock_yields (t : Z) (m : nat) :
  0 <= minuteMs ->
  forall (k : Z) (j : nat),
    k + Z.of_nat m = rpm ->
    fst (fst (nexts (S m) rpm minuteMs
                (SuspendedYield {| start := t; count := k |})
                {| readings := fun _ => t; cursor := j |})) =
    repeat 0 m ++ [minuteMs].
Proof.
  intros HW. induction m as [|m IH]; intros k j Hk.
  - cbn [nexts]. unfold tbind, tret. rewrite next_eq.
    unfold resume, tret. rewrite body_eq. cbn.
    replace (t + minuteMs - t) with minuteMs by lia.
    destruct (Z.ltb_spec minuteMs 0); [lia |].
    destruct (Z.gtb_spec (k + 1) rpm); [| lia]. reflexivity.
  - change (nexts (S (S m))) with
      (fun r w g => tbind (next r w g) (fun x =>
         tbind (nexts (S m) r w (snd x)) (fun rs =>
           tret (fst x :: fst rs, snd rs)))).
    cbv beta. unfold tbind at 1. rewrite next_eq.
    unfold resume, tret at 1. rewrite body_eq. cbn [start count readings cursor].
    cbv zeta.
    replace (t + minuteMs - t) with minuteMs by lia.
    destruct (Z.ltb_spec minuteMs 0); [lia |].
    destruct (Z.gtb_spec (k + 1) rpm); [lia |].
    cbn [snd fst]. unfold tbind at 1.
    specialize (IH (k + 1) (S j) ltac:(lia)).
    unfold tick; cbn [readings cursor].
    destruct (nexts (S m) rpm minuteMs _ _) as [rs c'].
    unfold tret. cbn [fst snd] in *. rewrite IH. reflexivity.
Qed.

End TrackerClaims.

(** C1: with a limit of 3 and a clock that stands still, the first two
    invocations yield 0 and the third already yields the whole window, as
    the fourth does, both with the window of 250 ms of the tests and with
    the default window of the example in the function's documentation:
    the third invocation in the window is not free. *)
Theorem third_call_of_three_already_waits :
  fst (fst (Tracker.nexts 4 3 250 Tracker.SuspendedStart (stopped_clock 1000)))
  = [0; 0; 250; 250]
  /\
  fst (fst (Tracker.nexts 4 3 Tracker.default_minuteMs Tracker.SuspendedStart
              (stopped_clock 1000)))
  = [0; 0; 60000; 60000].
Proof. split; reflexivity. Qed.

(** For every limit of at least 1 the call that completes the quota is
    the one that waits: a new generator yields 0 for the first
    [rpm - 1] calls and the whole window at call number [rpm]. *)
Lemma quota_completing_call_waits (rpm minuteMs t : Z) :
  1 <= rpm -> 0 <= minuteMs ->
  fst (fst (Tracker.nexts (Z.to_nat rpm) rpm minuteMs Tracker.SuspendedStart
              (stopped_clock t))) =
  repeat 0 (Z.to_nat (rpm - 1)) ++ [minuteMs].
Proof.
  intros HL HW.
  replace (Z.to_nat rpm) with (S (Z.to_nat (rpm - 1))) by lia.
  pose proof (stopped_clock_yields rpm minuteMs t (Z.to_nat (rpm - 1)) HW 1 1%nat
                ltac:(lia)) as H.
  rewrite <- H. reflexivity.
Qed.

(** With a limit of 1, a call made 300 ms after the start of a window of
    250 ms resets the window, is over the limit, and returns -50. *)
Lemma over_limit_reset_witness :
  fst (fst (Tracker.next 1 250
              (Tracker.SuspendedYield {| Tracker.start := 0; Tracker.count := 2 |})
              (stopped_clock 300))) =
  Tracker.remainder_of 250
    (Tracker.SuspendedYield {| Tracker.start := 0; Tracker.count := 2 |})
    (stopped_clock 300)
  /\
  fst (fst (Tracker.next 1 250
              (Tracker.SuspendedYield {| Tracker.start := 0; Tracker.count := 2 |})
              (stopped_clock 300))) < 0.
Proof.
  apply (proj1 (over_limit_reset_returns_negative_remainder 1 250
                  (Tracker.SuspendedYield
                     {| Tracker.start := 0; Tracker.count := 2 |})
                  (stopped_clock 300))); reflexivity.
Defined.

(** With a limit of 3 the same call returns 0, whatever the count was. *)
Lemma reset_returns_zero_witness :
  fst (fst (Tracker.next 3 250
              (Tracker.SuspendedYield {| Tracker.start := 0; Tracker.count := 4 |})
              (stopped_clock 300))) = 0.
Proof.
  apply (proj1 (reset_returns_zero_when_limit_at_least_two 3 250
                  (Tracker.SuspendedYield
                     {| Tracker.start := 0; Tracker.count := 4 |})
                  (stopped_clock 300))); [lia | reflexivity].
Defined.

(** ** The executor *)

Section WaitForFacts.

Import WaitFor.

Lemma world_eta (w : World) :
  {| clock := clock w; timers := timers w; created := created w;
     resolved := resolved w; timeoutId := timeoutId w;
     generators := generators w |} = w.
Proof. destruct w; reflexivity. Qed.

Lemma waitFor_eq (ms : Z) (w : World) :
  waitFor ms w =
  Some (created w,
        {| clock := clock w; timers := <[created w := ms]> (timers w);
           created := S (created w); resolved := resolved w;
           timeoutId := Some (created w); generators := generators w |}).
Proof. reflexivity. Qed.

Lemma clearWaitFor_eq (w : World) :
  clearWaitFor w =
  Some (tt,
        {| clock := clock w;
           timers := match timeoutId w with
                     | Some id => delete id (timers w)
                     | None => timers w
                     end;
           created := created w; resolved := resolved w;
           timeoutId := timeoutId w; generators := generators w |}).
Proof.
  unfold clearWaitFor, clearTimeout, rret.
  destruct (timeoutId w) eqn:H; [reflexivity |].
  rewrite <- H. rewrite world_eta. reflexivity.
Qed.

(** No event takes the recorded handle away. *)
Lemma step_keeps_handle (e : Event) (w w' : World) :
  step e w = Some (tt, w') ->
  timeoutId w <> None -> timeoutId w' <> None.
Proof.
  destruct e as [ms| |id]; cbn [step].
  - unfold rbind. rewrite waitFor_eq. unfold rret.
    intros [= <-] _. discriminate.
  - rewrite clearWaitFor_eq. intros [= <-]. cbn. auto.
  - unfold fire. destruct (timers w !! id); [| discriminate].
    intros [= <-]. cbn. auto.
Qed.

Lemma steps_keep_handle (es : list Event) :
  forall w w' : World,
    steps es w = Some (tt, w') ->
    timeoutId w <> None -> timeoutId w' <> None.
Proof.
  induction es as [|e es IH]; intros w w'; cbn [steps].
  - unfold rret. intros [= <-]. auto.
  - unfold rbind. destruct (step e w) as [[[] w1]|] eqn:He; [| discriminate].
    intros Hs Hw. eapply IH; [exact Hs |].
    eapply step_keeps_handle; eauto.
Qed.

End WaitForFacts.

(** C4, as stated, fails: after a wait of 100 ms has begun in a new
    executor, the recorded handle is still the timeout of that wait when
    the timeout has fired, and also when the wait has been cancelled; in
    neither case is the executor back to holding no handle. *)
Lemma handle_survives_fire_and_cancel :
  timeoutId <$>
    world_after (WaitFor.steps [WaitFor.EWait 100; WaitFor.EFire 0%nat]
                   (fresh_world (stopped_clock 1000))) = Some (Some 0%nat)
  /\
  timeoutId <$>
    world_after (WaitFor.steps [WaitFor.EWait 100; WaitFor.ECancel]
                   (fresh_world (stopped_clock 1000))) = Some (Some 0%nat).
Proof. split; reflexivity. Qed.

(** C4, amended: the handle is recorded when a wait begins, and the
    timeout of the wait is then scheduled.  When the timeout fires, and
    when the wait is cancelled, the timeout leaves the schedule but the
    handle stays recorded; and whatever waits, cancellations and firings
    follow, an executor that holds a handle never returns to holding
    none. *)
Theorem handle_recorded_and_kept (w : World) (ms : Z) :
  (exists w1 : World,
     WaitFor.waitFor ms w = Some (created w, w1) /\
     timeoutId w1 = Some (created w) /\
     timers w1 !! created w = Some ms /\
     (exists w2 : World,
        fire (created w) w1 = Some (tt, w2) /\
        timeoutId w2 = Some (created w) /\
        timers w2 !! created w = None) /\
     (exists w3 : World,
        WaitFor.clearWaitFor w1 = Some (tt, w3) /\
        timeoutId w3 = Some (created w) /\
        timers w3 !! created w = None))
  /\
  (forall (es : list WaitFor.Event) (w' : World),
     timeoutId w <> None ->
     WaitFor.steps es w = Some (tt, w') ->
     timeoutId w' <> None).
Proof.
  split.
  - eexists. split; [apply waitFor_eq |].
    cbn. split; [reflexivity |]. split; [apply lookup_insert_eq |]. split.
    + eexists. split.
      * unfold fire. cbn. rewrite lookup_insert_eq. reflexivity.
      * cbn. split; [reflexivity | apply lookup_delete_eq].
    + eexists. split; [reflexivity |].
      cbn. split; [reflexivity | apply lookup_delete_eq].
  - intros es w' Hw Hs. eapply steps_keep_handle; eauto.
Qed.

(** An executor with a wait of 100 ms pending, whose timeout fires, and
    which is then cancelled, made to wait again and cancelled again. *)
Lemma handle_recorded_and_kept_witness :
  timeoutId (waiting_world 100 (stopped_clock 1000)) <> None /\
  exists w' : World,
    WaitFor.steps
      [WaitFor.EFire 0%nat; WaitFor.ECancel; WaitFor.EWait 5; WaitFor.ECancel]
      (waiting_world 100 (stopped_clock 1000)) = Some (tt, w') /\
    timeoutId w' <> None.
Proof.
  split; [discriminate |].
  eexists. split; [reflexivity |].
  apply (proj2 (handle_recorded_and_kept
                  (waiting_world 100 (stopped_clock 1000)) 0)
           [WaitFor.EFire 0%nat; WaitFor.ECancel; WaitFor.EWait 5;
            WaitFor.ECancel]);
    [discriminate | reflexivity].
Defined.

(** ** The limiter *)

(** C7: when no handle is recorded, [clearWaitFor()] and the [clear()] of
    either variant of the limiter return normally and leave the whole
    world, and with it the executor and every generator, as it was; that
    is the case right after the limiter is initialised, before any wait
    has begun.  The same holds when a handle is recorded whose timeout is
    no longer scheduled. *)
Theorem cancel_without_pending_wait_is_noop (w : World) :
  (timeoutId w = None ->
   WaitFor.clearWaitFor w = Some (tt, w) /\
   (forall l : Lib.Limiter, Lib.clear l w = Some (tt, w)) /\
   (forall l : Eager.Limiter, Eager.clear l w = Some (tt, w)))
  /\
  (forall rpm minuteMs : Z,
     exists (l : Lib.Limiter) (w1 : World),
       Lib.initRatePerMinuteLimiter rpm minuteMs w = Some (l, w1) /\
       Lib.clear l w1 = Some (tt, w1))
  /\
  (forall id : nat,
     timeoutId w = Some id -> timers w !! id = None ->
     WaitFor.clearWaitFor w = Some (tt, w)).
Proof.
  split; [| split].
  - intros H. unfold Lib.clear, Eager.clear, WaitFor.clearWaitFor.
    rewrite H. auto.
  - intros rpm minuteMs. do 2 eexists. split; reflexivity.
  - intros id Hid Hgone. rewrite clearWaitFor_eq, Hid.
    rewrite delete_id by exact Hgone. rewrite <- Hid, world_eta. reflexivity.
Qed.

(** A new executor, cancelled before any wait. *)
Lemma cancel_without_pending_wait_witness :
  timeoutId (fresh_world (stopped_clock 1000)) = None /\
  WaitFor.clearWaitFor (fresh_world (stopped_clock 1000)) =
    Some (tt, fresh_world (stopped_clock 1000)).
Proof.
  split; [reflexivity |].
  apply (proj1 (cancel_without_pending_wait_is_noop
                  (fresh_world (stopped_clock 1000)))).
  reflexivity.
Defined.

(** C6: [clear()] returns normally, unschedules the timeout whose handle
    the executor holds and no other (so that nothing stays scheduled when
    waits are awaited one at a time), and changes neither the clock nor
    any generator; the delay the next call of a limiting operation takes
    from its generator is the one it would have taken without the
    [clear()]. *)
Theorem clear_keeps_tracker_state (l : Lib.Limiter) (w : World) :
  exists w' : World,
    Lib.clear l w = Some (tt, w') /\
    (forall id : nat, timeoutId w = Some id -> timers w' !! id = None) /\
    (forall id : nat,
       timeoutId w <> Some id -> timers w' !! id = timers w !! id) /\
    ((forall id : nat, is_Some (timers w !! id) -> timeoutId w = Some id) ->
     timers w' = ∅) /\
    generators w' = generators w /\
    clock w' = clock w /\
    (forall h : nat, delay_of_call h w' = delay_of_call h w) /\
    (forall l' : Eager.Limiter, Eager.clear l' w = Some (tt, w')).
Proof.
  unfold Lib.clear, Eager.clear.
  eexists. split; [apply clearWaitFor_eq |]. cbn.
  split; [| split; [| split; [| split; [reflexivity | split;
    [reflexivity | split; [| intros _; apply clearWaitFor_eq]]]]]].
  - intros id Hid. rewrite Hid. apply lookup_delete_eq.
  - intros id Hid. destruct (timeoutId w) as [id'|]; [| reflexivity].
    apply lookup_delete_ne. congruence.
  - intros Hone. apply map_eq. intros i. rewrite lookup_empty.
    destruct (timeoutId w) as [id'|] eqn:Hid.
    + destruct (decide (id' = i)) as [->|Hne]; [apply lookup_delete_eq |].
      rewrite lookup_delete_ne by exact Hne.
      destruct (timers w !! i) eqn:Hi; [| reflexivity].
      exfalso. apply Hne. specialize (Hone i ltac:(eauto)). congruence.
    + destruct (timers w !! i) eqn:Hi; [| reflexivity].
      specialize (Hone i ltac:(eauto)). congruence.
  - intros h. unfold delay_of_call, rateLimiter_call, rbind, generator_next.
    cbn. destruct (generators w !! h) as [g|]; [| reflexivity].
    destruct (Tracker.next (g_rpm g) (g_minuteMs g) (g_state g) (clock w))
      as [[v st] c].
    reflexivity.
Qed.

(** [clear()] while a wait of 100 ms is pending. *)
Lemma clear_keeps_tracker_state_witness :
  exists w' : World,
    Lib.clear {| Lib.rpm := 3; Lib.minuteMs := 250 |}
      (waiting_world 100 (stopped_clock 1000)) = Some (tt, w') /\
    timers w' !! 0%nat = None.
Proof.
  destruct (clear_keeps_tracker_state {| Lib.rpm := 3; Lib.minuteMs := 250 |}
              (waiting_world 100 (stopped_clock 1000)))
    as (w' & Hc & Hgone & _).
  exists w'. split; [exact Hc | apply Hgone; reflexivity].
Defined.

Section LimiterFacts.

(** One awaited call of the operation bound to generator [h]. *)
Lemma await_rateLimiter_eq (h : nat) (w : World) (g : Generator) :
  generators w !! h = Some g ->
  await_rateLimiter h w =
  let '(v, st, c) :=
    Tracker.next (g_rpm g) (g_minuteMs g) (g_state g) (clock w) in
  Some (v, {| clock := c;
              timers := delete (created w) (<[created w := v]> (timers w));
              created := S (created w);
              resolved := {[ created w ]} ∪ resolved w;
              timeoutId := Some (created w);
              generators :=
                <[h := {| g_rpm := g_rpm g; g_minuteMs := g_minuteMs g;
                          g_state := st |}]> (generators w) |}).
Proof.
  intros Hg.
  unfold await_rateLimiter, rateLimiter_call, rbind, generator_next.
  rewrite Hg.
  destruct (Tracker.next (g_rpm g) (g_minuteMs g) (g_state g) (clock w))
    as [[v st] c].
  cbn. unfold fire. cbn. rewrite lookup_insert_eq. reflexivity.
Qed.

(** [n] awaited calls of one operation yield what [n] calls of [next()]
    on its generator yield, and create no generator. *)
Lemma await_n_eq (h : nat) (n : nat) :
  forall (w : World) (g : Generator),
    generators w !! h = Some g ->
    exists w' : World,
      await_n n h w =
        Some (fst (fst (Tracker.nexts n (g_rpm g) (g_minuteMs g) (g_state g)
                          (clock w))), w') /\
      length (generators w') = length (generators w).
Proof.
  induction n as [|n IH]; intros w g Hg.
  - exists w. split; reflexivity.
  - cbn [await_n Tracker.nexts]. unfold rbind at 1. unfold tbind at 1.
    rewrite (await_rateLimiter_eq h w g Hg).
    destruct (Tracker.next (g_rpm g) (g_minuteMs g) (g_state g) (clock w))
      as [[v st] c].
    set (g1 := {| g_rpm := g_rpm g; g_minuteMs := g_minuteMs g; g_state := st |}).
    set (w1 := {| clock := c; timers := _; created := _; resolved := _;
                  timeoutId := _; generators := _ |}).
    assert (Hg1 : generators w1 !! h = Some g1).
    { subst w1. cbn. apply list_lookup_insert_eq.
      eapply lookup_lt_Some; exact Hg. }
    destruct (IH w1 g1 Hg1) as (w' & Hrun & Hlen).
    exists w'. split.
    + unfold rbind. rewrite Hrun. unfold rret, tbind, tret. cbn.
      destruct (Tracker.nexts n (g_rpm g) (g_minuteMs g) st c) as [[vs st'] c'].
      reflexivity.
    + rewrite Hlen. subst w1. cbn. apply length_insert.
Qed.

(** In the second variant reading the property runs nothing, so calling
    through the property is calling the one operation. *)
Lemma eager_by_access_eq (l : Eager.Limiter) (n : nat) :
  forall w : World,
    Eager.await_by_access n l w = await_n n (Eager.timeoutGenerator l) w.
Proof.
  induction n as [|n IH]; intros w; [reflexivity |].
  cbn [Eager.await_by_access await_n].
  unfold Eager.get_rateLimiter. unfold rbind at 1, rret at 1.
  unfold rbind. destruct (await_rateLimiter _ w) as [[v w1]|]; [| reflexivity].
  rewrite IH. reflexivity.
Qed.

End LimiterFacts.

(** C2, as stated, fails for [lib/index.ts]: with a limit of 3, a window
    of 250 ms and a clock that stands still, four calls made through the
    [rateLimiter] property create four generators and none of them
    waits, while four calls of one generator wait from the third on. *)
Lemma access_per_call_never_limits :
  result
    ((let! l := Lib.initRatePerMinuteLimiter 3 250 in
      Lib.await_by_access 4 l)%run (fresh_world (stopped_clock 1000)))
  = Some [0; 0; 0; 0]
  /\
  (fun w => length (generators w)) <$>
    world_after
      ((let! l := Lib.initRatePerMinuteLimiter 3 250 in
        Lib.await_by_access 4 l)%run (fresh_world (stopped_clock 1000)))
  = Some 4%nat
  /\
  fst (fst (Tracker.nexts 4 3 250 Tracker.SuspendedStart (stopped_clock 1000)))
  = [0; 0; 250; 250].
Proof. repeat split; vm_compute; reflexivity. Qed.

(** C2, amended: the constructor of [lib/index.ts] creates no generator;
    every read of the [rateLimiter] property creates one new generator
    and returns an operation bound to it; the calls of one such
    operation all use its generator, so the count accumulates over
    them.  The constructor of the second variant creates its generator
    once, and all calls made through its [rateLimiter] property use that
    generator and create no other. *)
Theorem generator_created_per_access_or_once (rpm minuteMs : Z) (w : World) :
  (exists (l : Lib.Limiter) (w0 : World),
     Lib.initRatePerMinuteLimiter rpm minuteMs w = Some (l, w0) /\
     generators w0 = generators w /\
     (forall w1 : World,
        exists w2 : World,
          Lib.get_rateLimiter l w1 = Some (length (generators w1), w2) /\
          generators w2 =
            generators w1 ++
            [{| g_rpm := rpm; g_minuteMs := minuteMs;
                g_state := Tracker.SuspendedStart |}]) /\
     (forall (n : nat) (w1 : World),
        exists w2 : World,
          Lib.await_by_binding n l w1 =
            Some (fst (fst (Tracker.nexts n rpm minuteMs Tracker.SuspendedStart
                              (clock w1))), w2) /\
          length (generators w2) = S (length (generators w1))))
  /\
  (exists (l : Eager.Limiter) (w0 : World),
     Eager.initRatePerMinuteLimiter rpm minuteMs w = Some (l, w0) /\
     generators w0 =
       generators w ++
       [{| g_rpm := rpm; g_minuteMs := minuteMs;
           g_state := Tracker.SuspendedStart |}] /\
     (forall n : nat,
        exists w2 : World,
          Eager.await_by_access n l w0 =
            Some (fst (fst (Tracker.nexts n rpm minuteMs Tracker.SuspendedStart
                              (clock w0))), w2) /\
          length (generators w2) = length (generators w0))).
Proof.
  split.
  - do 2 eexists. split; [reflexivity |]. cbn. split; [reflexivity |]. split.
    + intros w1. eexists. split; reflexivity.
    + intros n w1. unfold Lib.await_by_binding, Lib.get_rateLimiter,
        Lib.createRateLimiter, rbind, new_generator. cbn.
      set (g := {| g_rpm := rpm; g_minuteMs := minuteMs;
                   g_state := Tracker.SuspendedStart |}).
      set (w1' := {| clock := clock w1; timers := timers w1;
                     created := created w1; resolved := resolved w1;
                     timeoutId := timeoutId w1;
                     generators := generators w1 ++ [g] |}).
      assert (Hg : generators w1' !! length (generators w1) = Some g).
      { subst w1'. cbn. rewrite lookup_app_r by lia.
        rewrite Nat.sub_diag. reflexivity. }
      destruct (await_n_eq (length (generators w1)) n w1' g Hg)
        as (w2 & Hrun & Hlen).
      exists w2. split; [exact Hrun |].
      rewrite Hlen. subst w1'. cbn. rewrite length_app. cbn. lia.
  - do 2 eexists. split; [reflexivity |]. cbn. split; [reflexivity |].
    intros n. rewrite eager_by_access_eq. cbn.
    set (g := {| g_rpm := rpm; g_minuteMs := minuteMs;
                 g_state := Tracker.SuspendedStart |}).
    match goal with |- context [await_n n _ ?x] => set (w0 := x) end.
    assert (Hg : generators w0 !! length (generators w) = Some g).
    { subst w0. cbn. rewrite lookup_app_r by lia.
      rewrite Nat.sub_diag. reflexivity. }
    destruct (await_n_eq (length (generators w)) n w0 g Hg)
      as (w2 & Hrun & Hlen).
    exists w2. split; [exact Hrun | exact Hlen].
Qed.

(** ** roundMiliseconds *)

Section RoundingFacts.

(** [Math_round] at the points where rounding rules differ: ties go up,
    the largest float below one half goes down, zeros keep their sign,
    NaN and the infinities are returned as they are. *)
Example Math_round_points :
  F64.Math_round 2.5 = 3%float /\
  F64.Math_round (-2.5) = (-2)%float /\
  F64.Math_round 0x1.fffffffffffffp-2 = 0%float /\
  F64.Math_round (-0.5) = neg_zero /\
  F64.Math_round neg_zero = neg_zero /\
  F64.Math_round 133.25 = 133%float /\
  F64.Math_round nan = nan /\
  F64.Math_round infinity = infinity /\
  F64.Math_round neg_infinity = neg_infinity /\
  F64.Math_round 4503599627370497 = 4503599627370497%float.
Proof. repeat split; vm_compute; reflexivity. Qed.

End RoundingFacts.

(** C8, as stated, fails on binary64: 9007384830665966 rounded to the
    nearest multiple of 3 is 9007384830665968, and that rounded again is
    9007384830665970. *)
Lemma rounding_twice_moves_a_large_value :
  F64.roundMiliseconds 9007384830665966 3 = 9007384830665968%float
  /\
  F64.roundMiliseconds 9007384830665968 3 = 9007384830665970%float
  /\
  F64.idempotent_at 9007384830665966 3 = false.
Proof. repeat split; vm_compute; reflexivity. Qed.

(** * Further properties *)

(** ** The generator within one window *)

Section WindowFacts.

Import Tracker.

Variables rpm minuteMs : Z.

Lemma nexts_S (n : nat) (g : GenState) (c : Clock) :
  nexts (S n) rpm minuteMs g c =
  let '(v, g1, c1) := next rpm minuteMs g c in
  let '(vs, g2, c2) := nexts n rpm minuteMs g1 c1 in
  ((v :: vs, g2), c2).
Proof.
  cbn [nexts]. unfold tbind, tret.
  destruct (next rpm minuteMs g c) as [[v g1] c1]. cbn [fst snd].
  destruct (nexts n rpm minuteMs g1 c1) as [[vs g2] c2]. reflexivity.
Qed.

(** A call that finds the window still open. *)
Lemma next_in_window (l : Locals) (c : Clock) :
  0 <= start l + minuteMs - readings c (cursor c) ->
  next rpm minuteMs (SuspendedYield l) c =
  ((if count l + 1 >? rpm
    then start l + minuteMs - readings c (cursor c) else 0,
    SuspendedYield {| start := start l; count := count l + 1 |}),
   tick c).
Proof.
  intros H. rewrite next_eq. unfold resume, tret. rewrite body_eq. cbn.
  destruct (Z.ltb_spec (start l + minuteMs - readings c (cursor c)) 0);
    [lia | reflexivity].
Qed.

Lemma within_S (l : Locals) (c : Clock) (n : nat) :
  Window.within minuteMs l c (S n) = true ->
  0 <= start l + minuteMs - readings c (cursor c) /\
  Window.within minuteMs {| start := start l; count := count l + 1 |}
    (tick c) n = true.
Proof.
  unfold Window.within. cbn [seq forallb].
  rewrite andb_true_iff, Nat.add_0_r, Z.leb_le. intros [H0 Hn].
  split; [exact H0 |].
  rewrite forallb_forall in *. intros i Hi. cbn.
  specialize (Hn (S i)). rewrite <- seq_shift in Hn.
  rewrite Nat.add_succ_r in Hn. apply Hn. apply in_map. exact Hi.
Qed.

Lemma nexts_in_window (n : nat) :
  forall (l : Locals) (c : Clock),
    Window.within minuteMs l c n = true ->
    snd (fst (nexts n rpm minuteMs (SuspendedYield l) c)) =
      SuspendedYield {| start := start l; count := count l + Z.of_nat n |} /\
    cursor (snd (nexts n rpm minuteMs (SuspendedYield l) c)) =
      (cursor c + n)%nat /\
    length (fst (fst (nexts n rpm minuteMs (SuspendedYield l) c))) = n /\
    forall i : nat,
      (i < n)%nat ->
      nth i (fst (fst (nexts n rpm minuteMs (SuspendedYield l) c))) 0 =
      if count l + Z.of_nat i + 1 >? rpm
      then start l + minuteMs - readings c (cursor c + i)%nat
      else 0.
Proof.
  induction n as [|n IH]; intros l c Hw.
  - cbn. rewrite Z.add_0_r, Nat.add_0_r. destruct l.
    repeat split; try reflexivity. intros i Hi. lia.
  - apply within_S in Hw as [H0 Hn].
    rewrite nexts_S, (next_in_window l c H0).
    specialize (IH _ _ Hn). cbn [start count] in IH.
    destruct (nexts n rpm minuteMs
                (SuspendedYield {| start := start l; count := count l + 1 |})
                (tick c)) as [[vs g'] c'].
    cbn [fst snd] in *.
    destruct IH as (Hg & Hc & Hlen & Hnth).
    split; [rewrite Hg; f_equal; f_equal; lia |].
    split; [rewrite Hc; cbn; lia |].
    split; [cbn; rewrite Hlen; reflexivity |].
    intros [|i] Hi; cbn [nth].
    + rewrite Nat.add_0_r. replace (count l + Z.of_nat 0 + 1) with (count l + 1)
        by lia. reflexivity.
    + rewrite (Hnth i ltac:(lia)). cbn [tick readings cursor].
      replace (count l + 1 + Z.of_nat i + 1) with (count l + Z.of_nat (S i) + 1)
        by lia.
      replace (S (cursor c) + i)%nat with (cursor c + S i)%nat by lia.
      reflexivity.
Qed.


(** The values a new generator yields are those of a generator that has
    just set its window start. *)
Lemma nexts_started (n : nat) (c : Clock) :
  fst (fst (nexts n rpm minuteMs SuspendedStart c)) =
  fst (fst (nexts n rpm minuteMs
              (SuspendedYield {| start := readings c (cursor c); count := 1 |})
              (tick c))).
Proof.
  destruct n as [|n]; [reflexivity |].
  rewrite !nexts_S, next_started. reflexivity.
Qed.

(** As long as the readings of a new generator's calls are not later
    than one window after its first reading, the calls before call
    number [rpm] yield 0, and call number [rpm] and every later one yield
    the time from their reading to the end of that window, as long as no
    sum or difference rounds. *)
Lemma nexts_first_window (n : nat) (c : Clock) :
  Window.within minuteMs {| start := readings c (cursor c); count := 1 |}
    (tick c) n = true ->
  forall i : nat,
    (i < n)%nat ->
    nth i (fst (fst (nexts n rpm minuteMs SuspendedStart c))) 0 =
    if Z.of_nat (S i) >=? rpm
    then readings c (cursor c) + minuteMs - readings c (S (cursor c) + i)%nat
    else 0.
Proof.
  intros Hw i Hi. rewrite nexts_started.
  destruct (nexts_in_window n _ _ Hw) as (_ & _ & _ & Hnth).
  rewrite (Hnth i Hi). cbn [start count tick readings cursor].
  destruct (Z.gtb_spec (1 + Z.of_nat i + 1) rpm);
    destruct (Z.geb_spec (Z.of_nat (S i)) rpm); try lia; reflexivity.
Qed.

(** After a call the count is at least 2 when it was at least 1 before. *)
Lemma next_count (g : GenState) (c : Clock) :
  match g with
  | SuspendedStart => True
  | SuspendedYield l => 1 <= count l
  end ->
  match snd (fst (next rpm minuteMs g c)) with
  | SuspendedStart => False
  | SuspendedYield l' => 2 <= count l'
  end.
Proof.
  intros H. rewrite next_eq.
  destruct g as [|l]; unfold resume, tbind, Date_now, tret;
    rewrite body_eq; cbn;
    match goal with |- context [if ?b then _ else _] => destruct b end;
    cbn; lia.
Qed.

(** With a limit of at most 1 a call whose count was at least 1 yields
    its remainder. *)
Lemma next_never_free (g : GenState) (c : Clock) :
  rpm <= 1 ->
  match g with
  | SuspendedStart => True
  | SuspendedYield l => 1 <= count l
  end ->
  fst (fst (next rpm minuteMs g c)) = remainder_of minuteMs g c.
Proof.
  intros Hrpm H. rewrite next_eq. unfold remainder_of.
  destruct g as [|l]; unfold resume, tbind, Date_now, tret;
    rewrite body_eq; cbn;
    match goal with |- context [if ?b <? 0 then _ else _] =>
      destruct (b <? 0) end; cbn;
    match goal with |- context [if ?a >? ?b then _ else _] =>
      destruct (Z.gtb_spec a b) end; cbn in *; lia.
Qed.

Lemma nexts_never_free (n : nat) :
  rpm <= 1 ->
  forall (g : GenState) (c : Clock),
    match g with
    | SuspendedStart => True
    | SuspendedYield l => 1 <= count l
    end ->
    fst (fst (nexts n rpm minuteMs g c)) =
    Window.remainders n rpm minuteMs g c.
Proof.
  intros Hrpm. induction n as [|n IH]; intros g c Hg; [reflexivity |].
  rewrite nexts_S. cbn [Window.remainders].
  pose proof (next_never_free g c Hrpm Hg) as Hv.
  pose proof (next_count g c Hg) as Hc.
  destruct (next rpm minuteMs g c) as [[v g1] c1]. cbn [fst snd] in *.
  assert (Hg1 : match g1 with
                | SuspendedStart => True
                | SuspendedYield l => 1 <= count l
                end) by (destruct g1; [exact I | lia]).
  specialize (IH g1 c1 Hg1).
  destruct (nexts n rpm minuteMs g1 c1) as [[vs g2] c2]. cbn [fst snd] in *.
  rewrite Hv, IH. reflexivity.
Qed.

(** X3: with a limit of 1 or less no call of a generator is free: every
    call, the first included, yields the remainder it computed, the time
    to the end of the window or, after a reset, the negative time since
    then. *)
Theorem limit_of_one_never_free (n : nat) (c : Clock) :
  rpm <= 1 ->
  fst (fst (nexts n rpm minuteMs SuspendedStart c)) =
  Window.remainders n rpm minuteMs SuspendedStart c.
Proof. intros Hrpm. apply nexts_never_free; [exact Hrpm | exact I]. Qed.

(** X4: waiting out a yielded delay is enough.  When a call is over the
    limit in an open window and so yields what is left of the window, a
    following call whose reading is at least that much later yields no
    positive delay. *)
Theorem waiting_out_the_delay_suffices (l : Locals) (c : Clock) :
  resets minuteMs (SuspendedYield l) c = false ->
  count l + 1 > rpm ->
  readings c (S (cursor c)) >=
    readings c (cursor c) + fst (fst (next rpm minuteMs (SuspendedYield l) c)) ->
  fst (fst (next rpm minuteMs
              (snd (fst (next rpm minuteMs (SuspendedYield l) c)))
              (snd (next rpm minuteMs (SuspendedYield l) c)))) <= 0.
Proof.
  unfold resets, resume, tret, Date_now. intros Hopen Hover.
  apply Z.ltb_ge in Hopen.
  rewrite (next_in_window l c Hopen). cbn [fst snd].
  destruct (Z.gtb_spec (count l + 1) rpm); [| lia]. intros Hlater.
  rewrite next_eq. unfold resume, tret. rewrite body_eq.
  cbn [start count tick readings cursor]. cbv zeta.
  destruct (Z.ltb_spec (start l + minuteMs - readings c (S (cursor c))) 0).
  - cbn [fst]. destruct (1 + 1 >? rpm); lia.
  - cbn [fst]. destruct (count l + 1 + 1 >? rpm); lia.
Qed.

End WindowFacts.

(** Three calls of a new generator with a limit of 1, the third after
    the window has ended. *)
Lemma limit_of_one_never_free_witness :
  fst (fst (Tracker.nexts 3 1 250 Tracker.SuspendedStart
              (clock_of [1000; 1000; 1100; 1300; 1300]))) =
  Window.remainders 3 1 250 Tracker.SuspendedStart
    (clock_of [1000; 1000; 1100; 1300; 1300]).
Proof. apply limit_of_one_never_free. lia. Defined.

(** The third call of a window that began at 1000 is made at 1010 and
    yields 240; the next call is made at 1250. *)
Lemma waiting_out_the_delay_witness :
  Tracker.resets 250
    (Tracker.SuspendedYield {| Tracker.start := 1000; Tracker.count := 3 |})
    (clock_of [1010; 1250]) = false /\
  fst (fst (Tracker.next 3 250
              (snd (fst (Tracker.next 3 250
                           (Tracker.SuspendedYield
                              {| Tracker.start := 1000; Tracker.count := 3 |})
                           (clock_of [1010; 1250]))))
              (snd (Tracker.next 3 250
                      (Tracker.SuspendedYield
                         {| Tracker.start := 1000; Tracker.count := 3 |})
                      (clock_of [1010; 1250]))))) <= 0.
Proof.
  split; [reflexivity |].
  apply waiting_out_the_delay_suffices; [reflexivity | reflexivity |].
  vm_compute. discriminate.
Defined.

(** ** The executor and the limiter *)

Section RuntimeFacts.

Import WaitFor.

Lemma fresh_world_ids (c : Clock) : ids_below_created (fresh_world c).
Proof.
  split; intros id H.
  - cbn in H. rewrite lookup_empty in H. destruct H as [? H]. discriminate.
  - cbn in H. apply not_elem_of_empty in H. destruct H.
Qed.

Lemma step_keeps_cancelled (id : nat) (e : Event) (w w' : World) :
  step e w = Some (tt, w') -> cancelled id w -> cancelled id w'.
Proof.
  intros Hs (Hlt & Hgone & Hres). destruct e as [ms| |j]; cbn [step] in Hs.
  - unfold rbind in Hs. rewrite waitFor_eq in Hs. unfold rret in Hs.
    injection Hs as <-. split; [cbn; lia |]. split; [| exact Hres].
    cbn. rewrite lookup_insert_ne by lia. exact Hgone.
  - rewrite clearWaitFor_eq in Hs. injection Hs as <-.
    split; [exact Hlt |]. split; [| exact Hres]. cbn.
    destruct (timeoutId w) as [j|]; [| exact Hgone].
    destruct (decide (j = id)) as [->|Hne];
      [apply lookup_delete_eq | rewrite lookup_delete_ne by exact Hne; exact Hgone].
  - unfold fire in Hs. destruct (timers w !! j) eqn:Hj; [| discriminate].
    injection Hs as <-. assert (Hne : j <> id) by congruence.
    split; [exact Hlt |]. split; cbn.
    + rewrite lookup_delete_ne by exact Hne. exact Hgone.
    + intros Hin. apply elem_of_union in Hin as [Hin|Hin]; [| contradiction].
      apply elem_of_singleton in Hin. congruence.
Qed.

Lemma steps_keep_cancelled (id : nat) (es : list Event) :
  forall w w' : World,
    steps es w = Some (tt, w') -> cancelled id w -> cancelled id w'.
Proof.
  induction es as [|e es IH]; intros w w'; cbn [steps].
  - unfold rret. intros [= <-]. auto.
  - unfold rbind. destruct (step e w) as [[[] w1]|] eqn:He; [| discriminate].
    intros Hs Hc. eapply IH; [exact Hs |].
    eapply step_keeps_cancelled; eauto.
Qed.

(** X5: a second wait does not cancel the first.  After two waits begun
    one after the other and a cancellation, the timeout of the first
    wait is still scheduled and can fire and resolve its promise; only
    the timeout of the second wait, whose handle replaced the first, is
    unscheduled. *)
Theorem second_wait_leaves_first_scheduled (w : World) (ms1 ms2 : Z) :
  exists w' : World,
    steps [EWait ms1; EWait ms2; ECancel] w = Some (tt, w') /\
    timeoutId w' = Some (S (created w)) /\
    timers w' !! created w = Some ms1 /\
    timers w' !! S (created w) = None /\
    exists w'' : World,
      fire (created w) w' = Some (tt, w'') /\ created w ∈ resolved w''.
Proof.
  eexists. split; [reflexivity |]. cbn.
  split; [reflexivity |].
  assert (H1 : delete (S (created w))
                 (<[S (created w) := ms2]> (<[created w := ms1]> (timers w)))
               !! created w = Some ms1).
  { rewrite lookup_delete_ne by lia. rewrite lookup_insert_ne by lia.
    apply lookup_insert_eq. }
  split; [exact H1 |]. split; [apply lookup_delete_eq |].
  unfold fire. cbn. rewrite H1. eexists. split; [reflexivity |].
  cbn. set_solver.
Qed.

(** X6: a cancelled wait never resolves.  When a wait is begun and then
    cancelled, whatever waits, cancellations and firings of timeouts
    follow, the timeout of that wait cannot fire and its promise is not
    resolved. *)
Theorem cancelled_wait_never_resolves
    (w w' : World) (ms : Z) (es : list Event) :
  ids_below_created w ->
  steps (EWait ms :: ECancel :: es) w = Some (tt, w') ->
  (created w ∉ resolved w') /\ fire (created w) w' = None.
Proof.
  intros [_ Hres] Hs. cbn [steps step] in Hs. unfold rbind at 1 2 in Hs.
  rewrite waitFor_eq in Hs. unfold rret at 1 in Hs.
  unfold rbind at 1 in Hs. rewrite clearWaitFor_eq in Hs.
  cbn [timeoutId timers clock created resolved generators] in Hs.
  assert (Hc : cancelled (created w) w').
  { eapply steps_keep_cancelled; [exact Hs |].
    split; [cbn; lia |]. split; [cbn; apply lookup_delete_eq |].
    cbn. intros Hin. apply Hres in Hin. lia. }
  destruct Hc as (_ & Hgone & Hnot). split; [exact Hnot |].
  unfold fire. rewrite Hgone. reflexivity.
Qed.

(** X7: a call of the limiting operation always goes through a timeout.
    Whatever delay the generator yields, zero and negative ones
    included, the call schedules a new timeout with that delay, records
    its handle, and awaits the promise of that timeout. *)
Theorem call_schedules_the_yielded_delay (h : nat) (w : World) (g : Generator) :
  generators w !! h = Some g ->
  exists w' : World,
    rateLimiter_call h w =
      Some ((fst (fst (Tracker.next (g_rpm g) (g_minuteMs g) (g_state g)
                         (clock w))),
             created w), w') /\
    timers w' !! created w =
      Some (fst (fst (Tracker.next (g_rpm g) (g_minuteMs g) (g_state g)
                        (clock w)))) /\
    timeoutId w' = Some (created w) /\
    resolved w' = resolved w.
Proof.
  intros Hg. unfold rateLimiter_call, rbind, generator_next. rewrite Hg.
  destruct (Tracker.next (g_rpm g) (g_minuteMs g) (g_state g) (clock w))
    as [[v st] c].
  cbn. eexists. split; [reflexivity |]. cbn.
  split; [apply lookup_insert_eq |]. split; reflexivity.
Qed.

(** X8: limiting operations bound to different generators do not share
    a count: a call of one leaves the generator of the other as it was.
    They do share the executor: the handle recorded afterwards is that of
    the call just made. *)
Theorem operations_keep_their_own_generator
    (h1 h2 : nat) (w w' : World) (r : Z * nat) :
  h1 <> h2 ->
  rateLimiter_call h1 w = Some (r, w') ->
  generators w' !! h2 = generators w !! h2 /\
  timeoutId w' = Some (snd r).
Proof.
  intros Hne. unfold rateLimiter_call, rbind, generator_next.
  destruct (generators w !! h1) as [g|]; [| discriminate].
  destruct (Tracker.next (g_rpm g) (g_minuteMs g) (g_state g) (clock w))
    as [[v st] c].
  cbn. intros [= <- <-]. cbn. split; [| reflexivity].
  apply list_lookup_insert_ne. exact Hne.
Qed.

(** With a limit of at least 2 the first call of a generator is free,
    whatever the clock shows. *)
Lemma first_call_free (rpm minuteMs : Z) (c : Clock) :
  2 <= rpm ->
  fst (fst (Tracker.next rpm minuteMs Tracker.SuspendedStart c)) = 0.
Proof.
  intros H. rewrite next_eq.
  unfold Tracker.resume, tbind, Date_now, tret. rewrite body_eq. cbn.
  match goal with |- context [if ?b <? 0 then _ else _] =>
    destruct (b <? 0) end; cbn;
  match goal with |- context [if ?a >? ?b then _ else _] =>
    destruct (Z.gtb_spec a b) end; cbn; lia.
Qed.

(** X9: called through the [rateLimiter] property of [lib/index.ts], a
    limiter with a limit of at least 2 never limits: every call gets a
    new generator, whose first call is free, so every delay is 0
    whatever the clock shows and however many calls are made. *)
Theorem calls_through_the_property_never_wait (l : Lib.Limiter) (n : nat) :
  2 <= Lib.rpm l ->
  forall w : World,
    exists w' : World,
      Lib.await_by_access n l w = Some (repeat 0 n, w') /\
      length (generators w') = (length (generators w) + n)%nat.
Proof.
  intros Hrpm. induction n as [|n IH]; intros w.
  - exists w. split; [reflexivity | cbn; lia].
  - cbn [Lib.await_by_access].
    unfold Lib.get_rateLimiter, Lib.createRateLimiter.
    unfold rbind at 1. unfold new_generator.
    set (g := {| g_rpm := Lib.rpm l; g_minuteMs := Lib.minuteMs l;
                 g_state := Tracker.SuspendedStart |}).
    set (w1 := {| clock := clock w; timers := timers w; created := created w;
                  resolved := resolved w; timeoutId := timeoutId w;
                  generators := generators w ++ [g] |}).
    assert (Hg : generators w1 !! length (generators w) = Some g).
    { subst w1. cbn. rewrite lookup_app_r by lia.
      rewrite Nat.sub_diag. reflexivity. }
    unfold rbind at 1. rewrite (await_rateLimiter_eq _ w1 g Hg).
    pose proof (first_call_free (Lib.rpm l) (Lib.minuteMs l) (clock w1) Hrpm)
      as Hv.
    cbn [g_rpm g_minuteMs g_state g].
    destruct (Tracker.next (Lib.rpm l) (Lib.minuteMs l) Tracker.SuspendedStart
                (clock w1)) as [[v st] c].
    cbn [fst] in Hv. subst v.
    match goal with |- context [rbind _ _ ?x] =>
      destruct (IH x) as (w' & Hrun & Hlen) end.
    exists w'. unfold rbind. rewrite Hrun. split; [reflexivity |].
    rewrite Hlen. cbn. rewrite length_insert. subst w1. cbn.
    rewrite length_app. cbn. lia.
Qed.

End RuntimeFacts.

(** A wait of 100 ms and its cancellation in a new executor, followed by
    a wait of 5 ms that fires, and an attempt to fire the cancelled
    timeout, which ends the run. *)
Lemma cancelled_wait_never_resolves_witness :
  ids_below_created (fresh_world (stopped_clock 1000)) /\
  exists w' : World,
    WaitFor.steps [WaitFor.EWait 100; WaitFor.ECancel; WaitFor.EWait 5;
                   WaitFor.EFire 1%nat]
      (fresh_world (stopped_clock 1000)) = Some (tt, w') /\
    (0%nat ∉ resolved w') /\ fire 0%nat w' = None.
Proof.
  split; [apply fresh_world_ids |].
  eexists. split; [reflexivity |].
  apply (cancelled_wait_never_resolves (fresh_world (stopped_clock 1000)) _ 100
           [WaitFor.EWait 5; WaitFor.EFire 1%nat]);
    [apply fresh_world_ids | reflexivity].
Defined.

(** The first call of the operation obtained from a new limiter with a
    limit of 3 and a window of 250 ms. *)
Lemma call_schedules_the_yielded_delay_witness :
  exists w' : World,
    rateLimiter_call 0 (limiter_world 1 3 250 (stopped_clock 1000)) =
      Some ((0, 0%nat), w') /\
    timers w' !! 0%nat = Some 0.
Proof.
  destruct (call_schedules_the_yielded_delay 0
              (limiter_world 1 3 250 (stopped_clock 1000)) _ eq_refl)
    as (w' & Hcall & Htimer & _).
  exists w'. split; [exact Hcall | exact Htimer].
Defined.

(** Two operations of a limiter with a limit of 3; the first is called. *)
Lemma operations_keep_their_own_generator_witness :
  exists w' : World,
    rateLimiter_call 0 (limiter_world 2 3 250 (stopped_clock 1000)) =
      Some ((0, 0%nat), w') /\
    generators w' !! 1%nat =
      generators (limiter_world 2 3 250 (stopped_clock 1000)) !! 1%nat /\
    timeoutId w' = Some (snd (0, 0%nat)).
Proof.
  eexists. split; [reflexivity |].
  apply (operations_keep_their_own_generator 0 1
           (limiter_world 2 3 250 (stopped_clock 1000)) _ (0, 0%nat));
    [discriminate | reflexivity].
Defined.

(** Five calls through the property of a limiter with a limit of 3. *)
Lemma calls_through_the_property_witness :
  exists w' : World,
    Lib.await_by_access 5 {| Lib.rpm := 3; Lib.minuteMs := 250 |}
      (fresh_world (stopped_clock 1000)) = Some (repeat 0 5, w') /\
    length (generators w') =
      (length (generators (fresh_world (stopped_clock 1000))) + 5)%nat.
Proof.
  apply (calls_through_the_property_never_wait
           {| Lib.rpm := 3; Lib.minuteMs := 250 |} 5).
  cbn. lia.
Defined.

(** ** roundMiliseconds on whole and on exceptional values *)

Section MoreRoundingFacts.

Local Open Scope Z_scope.

Lemma agrees_upto_sound (X M : nat) :
  Whole.agrees_upto X M = true ->
  forall x m : nat,
    (x <= X)%nat -> (1 <= m <= M)%nat ->
    F64.roundMiliseconds (F64.of_nat x) (F64.of_nat m) =
    Whole.float_of_Z (Whole.nearest_multiple (Z.of_nat x) (Z.of_nat m)).
Proof.
  unfold Whole.agrees_upto. intros H x m Hx Hm.
  rewrite forallb_forall in H.
  specialize (H x ltac:(apply in_seq; lia)).
  rewrite forallb_forall in H.
  specialize (H (pred m) ltac:(apply in_seq; lia)).
  replace (S (pred m)) with m in H by lia.
  apply FloatAxioms.Leibniz.eqb_spec. exact H.
Qed.

(** The nearest multiple is at most half of [m] away. *)
Lemma nearest_multiple_near (x m : Z) :
  1 <= m ->
  2 * x - m < 2 * Whole.nearest_multiple x m <= 2 * x + m.
Proof.
  intros Hm. unfold Whole.nearest_multiple.
  pose proof (Z.div_mod (2 * x + m) (2 * m) ltac:(lia)) as Hd.
  pose proof (Z.mod_pos_bound (2 * x + m) (2 * m) ltac:(lia)) as Hr.
  nia.
Qed.

(** X10: on binary64, for every whole number of milliseconds up to 3000
    and every whole multiple from 1 to 20, [roundMiliseconds] returns
    exactly a whole multiple of [m] that is at most half of [m] away
    from [x], the upper one when [x] is half way between two. *)
Theorem whole_milliseconds_round_exactly (x m : nat) :
  (x <= 3000)%nat -> (1 <= m <= 20)%nat ->
  exists k : Z,
    F64.roundMiliseconds (F64.of_nat x) (F64.of_nat m) =
      Whole.float_of_Z (Z.of_nat m * k) /\
    2 * Z.of_nat x - Z.of_nat m < 2 * (Z.of_nat m * k) <=
      2 * Z.of_nat x + Z.of_nat m.
Proof.
  intros Hx Hm. exists ((2 * Z.of_nat x + Z.of_nat m) / (2 * Z.of_nat m)).
  split.
  - apply (agrees_upto_sound 3000 20); [vm_compute; reflexivity | lia | lia].
  - apply nearest_multiple_near. lia.
Qed.

Local Open Scope float_scope.

Lemma div_by_zero (x : float) :
  x / 0 = infinity \/ x / 0 = neg_infinity \/ x / 0 = nan.
Proof.
  assert (H := div_spec x 0).
  change (Prim2SF 0) with (S754_zero false) in H.
  destruct (Prim2SF x) as [s|s| |s m e]; cbn in H;
    try destruct s;
    first [ left; apply Prim2SF_inj; rewrite H; reflexivity
          | right; left; apply Prim2SF_inj; rewrite H; reflexivity
          | right; right; apply Prim2SF_inj; rewrite H; reflexivity ].
Qed.

Lemma div_by_neg_zero (x : float) :
  x / neg_zero = infinity \/ x / neg_zero = neg_infinity \/ x / neg_zero = nan.
Proof.
  assert (H := div_spec x neg_zero).
  change (Prim2SF neg_zero) with (S754_zero true) in H.
  destruct (Prim2SF x) as [s|s| |s m e]; cbn in H;
    try destruct s;
    first [ left; apply Prim2SF_inj; rewrite H; reflexivity
          | right; left; apply Prim2SF_inj; rewrite H; reflexivity
          | right; right; apply Prim2SF_inj; rewrite H; reflexivity ].
Qed.

Lemma div_by_infinity (x y : float) :
  y = infinity \/ y = neg_infinity ->
  x / y = 0 \/ x / y = neg_zero \/ x / y = nan.
Proof.
  intros Hy. assert (H := div_spec x y).
  destruct Hy as [-> | ->];
    [change (Prim2SF infinity) with (S754_infinity false) in H
    |change (Prim2SF neg_infinity) with (S754_infinity true) in H];
    destruct (Prim2SF x) as [s|s| |s m e]; cbn in H;
    try destruct s;
    first [ left; apply Prim2SF_inj; rewrite H; reflexivity
          | right; left; apply Prim2SF_inj; rewrite H; reflexivity
          | right; right; apply Prim2SF_inj; rewrite H; reflexivity ].
Qed.

Lemma div_by_nan (x : float) : x / nan = nan.
Proof.
  apply Prim2SF_inj. rewrite div_spec.
  change (Prim2SF nan) with S754_nan.
  destruct (Prim2SF x) as [s|s| |s m e]; reflexivity.
Qed.

Lemma nan_div (y : float) : nan / y = nan.
Proof.
  apply Prim2SF_inj. rewrite div_spec.
  change (Prim2SF nan) with S754_nan. reflexivity.
Qed.

Lemma nan_mul (y : float) : nan * y = nan.
Proof.
  apply Prim2SF_inj. rewrite mul_spec.
  change (Prim2SF nan) with S754_nan. reflexivity.
Qed.

(** X11: [roundMiliseconds] never fails, and returns NaN whenever the
    multiple is zero (of either sign), infinite or NaN, whatever the
    value, and whenever the value is NaN, whatever the multiple. *)
Theorem roundMiliseconds_nan_cases (x : float) :
  F64.roundMiliseconds x 0 = nan /\
  F64.roundMiliseconds x neg_zero = nan /\
  F64.roundMiliseconds x infinity = nan /\
  F64.roundMiliseconds x neg_infinity = nan /\
  F64.roundMiliseconds x nan = nan /\
  F64.roundMiliseconds nan x = nan.
Proof.
  unfold F64.roundMiliseconds. repeat split.
  - destruct (div_by_zero x) as [H|[H|H]]; rewrite H; vm_compute; reflexivity.
  - destruct (div_by_neg_zero x) as [H|[H|H]]; rewrite H; vm_compute;
      reflexivity.
  - destruct (div_by_infinity x infinity (or_introl eq_refl)) as [H|[H|H]];
      rewrite H; vm_compute; reflexivity.
  - destruct (div_by_infinity x neg_infinity (or_intror eq_refl)) as [H|[H|H]];
      rewrite H; vm_compute; reflexivity.
  - rewrite div_by_nan. vm_compute. reflexivity.
  - rewrite nan_div.
    replace (F64.Math_round nan) with nan by (vm_compute; reflexivity).
    apply nan_mul.
Qed.

End MoreRoundingFacts.

(** A value of the tests and the multiple they round to. *)
Lemma whole_milliseconds_round_exactly_witness :
  exists k : Z,
    F64.roundMiliseconds (F64.of_nat 248) (F64.of_nat 5) =
      Whole.float_of_Z (Z.of_nat 5 * k)%Z /\
    (2 * Z.of_nat 248 - Z.of_nat 5 < 2 * (Z.of_nat 5 * k) <=
       2 * Z.of_nat 248 + Z.of_nat 5)%Z.
Proof. apply whole_milliseconds_round_exactly; lia. Defined.

(** ** The test suite of the generator *)

Section GeneratorTestFacts.

Import Tracker.

Local Open Scope Z_scope.

Lemma getNextTimeout_start (c : Clock) :
  GeneratorTest.getNextTimeout SuspendedStart c =
  GeneratorTest.getNextTimeout
    (SuspendedYield {| start := readings c (cursor c); count := 1 |}) (tick c).
Proof. reflexivity. Qed.

Lemma getNextTimeout_open (l : Locals) (c : Clock) :
  0 <= start l + 250 - readings c (cursor c) ->
  GeneratorTest.getNextTimeout (SuspendedYield l) c =
  ((F64.roundMiliseconds
      (Whole.float_of_Z
         (if count l + 1 >? 3
          then start l + 250 - readings c (cursor c) else 0)) 5,
    SuspendedYield {| start := start l; count := count l + 1 |}),
   tick c).
Proof.
  intros H. unfold GeneratorTest.getNextTimeout, GeneratorTest.MS_PER_MINUTE,
    tbind, tret.
  rewrite (next_in_window 3 250 l c H). reflexivity.
Qed.

Lemma getNextTimeout_reset (l : Locals) (c : Clock) :
  start l + 250 - readings c (cursor c) < 0 ->
  GeneratorTest.getNextTimeout (SuspendedYield l) c =
  ((F64.roundMiliseconds (Whole.float_of_Z 0) 5,
    SuspendedYield {| start := readings c (S (cursor c)); count := 2 |}),
   tick (tick c)).
Proof.
  intros H. unfold GeneratorTest.getNextTimeout, GeneratorTest.MS_PER_MINUTE,
    tbind, tret.
  rewrite next_eq. unfold resume, tret. rewrite body_eq. cbn.
  destruct (Z.ltb_spec (start l + 250 - readings c (cursor c)) 0); [| lia].
  reflexivity.
Qed.

Lemma round_near_window (v : Z) :
  248 <= v <= 250 ->
  F64.roundMiliseconds (Whole.float_of_Z v) 5 = 250%float.
Proof.
  intros H. assert (Hv : v = 248 \/ v = 249 \/ v = 250) by lia.
  destruct Hv as [-> | [-> | ->]]; vm_compute; reflexivity.
Qed.

Lemma round_zero : F64.roundMiliseconds (Whole.float_of_Z 0) 5 = 0%float.
Proof. vm_compute. reflexivity. Qed.

Variable now : nat -> Z.

(** X13: the expectations of the [timerGenerator] suite are met on every
    clock on which the first three calls come no later than the end of
    the first window and the fourth within 2 ms after the generator's
    start, the fifth call comes after the end of the first window, and
    the sixth and seventh call come within the window the fifth call
    starts, the seventh within 2 ms after its start. *)
Theorem generator_suite_expectations_met :
  now 1%nat <= now 0%nat + 250 ->
  now 2%nat <= now 0%nat + 250 ->
  now 3%nat <= now 0%nat + 250 ->
  now 0%nat <= now 4%nat <= now 0%nat + 2 ->
  now 0%nat + 250 < now 5%nat ->
  now 7%nat <= now 6%nat + 250 ->
  now 6%nat <= now 8%nat <= now 6%nat + 2 ->
  GeneratorTest.received {| readings := now; cursor := 0 |} =
  (GeneratorTest.expected, {| readings := now; cursor := 9 |}).
Proof.
  intros H1 H2 H3 H4 H5 H7 H8.
  unfold GeneratorTest.received, tbind.
  rewrite getNextTimeout_start. cbn [tick readings cursor].
  rewrite getNextTimeout_open by (cbn; lia).
  cbn [fst snd tick readings cursor start count].
  rewrite getNextTimeout_open by (cbn; lia).
  cbn [fst snd tick readings cursor start count].
  rewrite getNextTimeout_open by (cbn; lia).
  cbn [fst snd tick readings cursor start count].
  rewrite getNextTimeout_open by (cbn; lia).
  cbn [fst snd tick readings cursor start count].
  rewrite getNextTimeout_reset by (cbn; lia).
  cbn [fst snd tick readings cursor start count].
  rewrite getNextTimeout_open by (cbn; lia).
  cbn [fst snd tick readings cursor start count].
  rewrite getNextTimeout_open by (cbn; lia).
  cbn [fst snd tick readings cursor start count].
  unfold tret, GeneratorTest.expected.
  change (1 + 1 + 1 + 1 + 1 >? 3) with true.
  change (2 + 1 >? 3) with false.
  change (2 + 1 + 1 >? 3) with true. cbv iota.
  rewrite !round_zero, !round_near_window by lia. reflexivity.
Qed.

(** X14: the window is reset only by a call that comes after its end.
    When the fifth call of the suite comes exactly at the end of the
    first window it yields 0 without resetting; the sixth call, coming
    later, resets the window and is the first call of the new one, so
    that the seventh call is still free: it yields 0 where the suite
    expects the whole window. *)
Theorem generator_suite_boundary :
  now 1%nat <= now 0%nat + 250 ->
  now 2%nat <= now 0%nat + 250 ->
  now 3%nat <= now 0%nat + 250 ->
  now 0%nat <= now 4%nat <= now 0%nat + 2 ->
  now 5%nat = now 0%nat + 250 ->
  now 0%nat + 250 < now 6%nat ->
  now 8%nat <= now 7%nat + 250 ->
  GeneratorTest.received {| readings := now; cursor := 0 |} =
  ([250; 0; 0; 0]%float, {| readings := now; cursor := 9 |}).
Proof.
  intros H1 H2 H3 H4 H5 H6 H8.
  unfold GeneratorTest.received, tbind.
  rewrite getNextTimeout_start. cbn [tick readings cursor].
  rewrite getNextTimeout_open by (cbn; lia).
  cbn [fst snd tick readings cursor start count].
  rewrite getNextTimeout_open by (cbn; lia).
  cbn [fst snd tick readings cursor start count].
  rewrite getNextTimeout_open by (cbn; lia).
  cbn [fst snd tick readings cursor start count].
  rewrite getNextTimeout_open by (cbn; lia).
  cbn [fst snd tick readings cursor start count].
  rewrite getNextTimeout_open by (cbn; lia).
  cbn [fst snd tick readings cursor start count].
  rewrite getNextTimeout_reset by (cbn; lia).
  cbn [fst snd tick readings cursor start count].
  rewrite getNextTimeout_open by (cbn; lia).
  cbn [fst snd tick readings cursor start count].
  unfold tret.
  change (1 + 1 + 1 + 1 >? 3) with true.
  change (1 + 1 + 1 + 1 + 1 >? 3) with true.
  change (2 + 1 >? 3) with false. cbv iota.
  replace (now 0%nat + 250 - now 5%nat) with 0 by lia.
  rewrite !round_zero, !round_near_window by lia. reflexivity.
Qed.

End GeneratorTestFacts.

(** The four calls at the generator's start, the fifth 255 ms later. *)
Lemma generator_suite_expectations_witness :
  GeneratorTest.received
    (clock_of [1000; 1000; 1000; 1001; 1001; 1255; 1255; 1255; 1256]) =
  (GeneratorTest.expected,
   {| readings :=
        readings (clock_of [1000; 1000; 1000; 1001; 1001; 1255; 1255; 1255; 1256]);
      cursor := 9 |}).
Proof.
  apply (generator_suite_expectations_met
           (readings (clock_of [1000; 1000; 1000; 1001; 1001; 1255; 1255;
                                1255; 1256])));
    cbn; lia.
Defined.

(** The fifth call exactly 250 ms after the generator's start. *)
Lemma generator_suite_boundary_witness :
  GeneratorTest.received
    (clock_of [1000; 1000; 1000; 1001; 1001; 1250; 1251; 1251; 1252]) =
  ([250; 0; 0; 0]%float,
   {| readings :=
        readings (clock_of [1000; 1000; 1000; 1001; 1001; 1250; 1251; 1251; 1252]);
      cursor := 9 |}).
Proof.
  apply (generator_suite_boundary
           (readings (clock_of [1000; 1000; 1000; 1001; 1001; 1250; 1251;
                                1251; 1252])));
    cbn; lia.
Defined.

(** ** Sessions with a limiter *)

Section SessionFacts.

Import Session.

Lemma rateLimiter_call_eq (h : nat) (w : World) :
  rateLimiter_call h w =
  match generators w !! h with
  | Some g =>
      let '(v, st, c) :=
        Tracker.next (g_rpm g) (g_minuteMs g) (g_state g) (clock w) in
      Some ((v, created w),
            {| clock := c; timers := <[created w := v]> (timers w);
               created := S (created w); resolved := resolved w;
               timeoutId := Some (created w);
               generators :=
                 <[h := {| g_rpm := g_rpm g; g_minuteMs := g_minuteMs g;
                           g_state := st |}]> (generators w) |})
  | None => None
  end.
Proof.
  unfold rateLimiter_call, rbind, generator_next.
  destruct (generators w !! h) as [g|]; [| reflexivity].
  destruct (Tracker.next (g_rpm g) (g_minuteMs g) (g_state g) (clock w))
    as [[v st] c].
  reflexivity.
Qed.

(** The four actions, as changes of the timer table, the counter of
    timeouts, the resolved promises and the handle. *)
Lemma act_effect (l : Lib.Limiter) (a : Action) (w w' : World) :
  act l a w = Some (tt, w') ->
  (timers w' = timers w /\ created w' = created w /\
   resolved w' = resolved w /\ timeoutId w' = timeoutId w)
  \/
  (exists v : Z,
     timers w' = <[created w := v]> (timers w) /\
     created w' = S (created w) /\
     resolved w' = resolved w /\ timeoutId w' = Some (created w))
  \/
  (exists id : nat,
     timeoutId w = Some id /\
     timers w' = delete id (timers w) /\ created w' = created w /\
     resolved w' = resolved w /\ timeoutId w' = timeoutId w)
  \/
  (exists id : nat,
     is_Some (timers w !! id) /\
     timers w' = delete id (timers w) /\ created w' = created w /\
     resolved w' = {[ id ]} ∪ resolved w /\ timeoutId w' = timeoutId w).
Proof.
  destruct a as [|h| |id]; cbn [act].
  - unfold rbind, Lib.get_rateLimiter, Lib.createRateLimiter, new_generator,
      rret. intros [= <-]. left. cbn. auto.
  - unfold rbind. rewrite rateLimiter_call_eq.
    destruct (generators w !! h) as [g|]; [| discriminate].
    destruct (Tracker.next (g_rpm g) (g_minuteMs g) (g_state g) (clock w))
      as [[v st] c].
    unfold rret. intros [= <-]. right; left. exists v. cbn. auto.
  - unfold Lib.clear. rewrite clearWaitFor_eq. intros [= <-].
    destruct (timeoutId w) as [id|] eqn:Hid.
    + right; right; left. exists id. cbn. auto.
    + left. cbn. auto.
  - unfold fire. destruct (timers w !! id) eqn:Hid; [| discriminate].
    intros [= <-]. right; right; right. exists id. cbn.
    split; [eauto | auto].
Qed.

Lemma act_keeps_ids (l : Lib.Limiter) (a : Action) (w w' : World) :
  act l a w = Some (tt, w') -> ids_below_created w -> ids_below_created w'.
Proof.
  intros Ha [Ht Hr]. apply act_effect in Ha.
  destruct Ha as [(Et & Ec & Er & _)
                 |[(v & Et & Ec & Er & _)
                 |[(id & _ & Et & Ec & Er & _)
                 |(id & Hid & Et & Ec & Er & _)]]];
    split; intros j Hj; rewrite ?Et, ?Ec, ?Er in *.
  - auto.
  - auto.
  - destruct (decide (created w = j)) as [<-|Hne]; [lia |].
    rewrite lookup_insert_ne in Hj by exact Hne. apply Ht in Hj. lia.
  - apply Hr in Hj. lia.
  - destruct (decide (id = j)) as [<-|Hne].
    + rewrite lookup_delete_eq in Hj. destruct Hj as [? Hj]. discriminate.
    + rewrite lookup_delete_ne in Hj by exact Hne. auto.
  - auto.
  - destruct (decide (id = j)) as [<-|Hne].
    + rewrite lookup_delete_eq in Hj. destruct Hj as [? Hj]. discriminate.
    + rewrite lookup_delete_ne in Hj by exact Hne. auto.
  - apply elem_of_union in Hj as [Hj|Hj]; [| auto].
    apply elem_of_singleton in Hj. subst j. auto.
Qed.

Lemma act_keeps_cancelled (l : Lib.Limiter) (p : nat) (a : Action)
    (w w' : World) :
  act l a w = Some (tt, w') -> cancelled p w -> cancelled p w'.
Proof.
  intros Ha (Hlt & Hgone & Hres). apply act_effect in Ha.
  destruct Ha as [(Et & Ec & Er & _)
                 |[(v & Et & Ec & Er & _)
                 |[(id & _ & Et & Ec & Er & _)
                 |(id & Hid & Et & Ec & Er & _)]]];
    unfold cancelled; rewrite Et, Ec, Er.
  - auto.
  - split; [lia |]. split; [| exact Hres].
    rewrite lookup_insert_ne by lia. exact Hgone.
  - split; [exact Hlt |]. split; [| exact Hres].
    destruct (decide (id = p)) as [->|Hne];
      [apply lookup_delete_eq
      |rewrite lookup_delete_ne by exact Hne; exact Hgone].
  - assert (Hne : id <> p).
    { intros ->. rewrite Hgone in Hid. destruct Hid as [? Hid]. discriminate. }
    split; [exact Hlt |]. split.
    + rewrite lookup_delete_ne by exact Hne. exact Hgone.
    + intros Hin. apply elem_of_union in Hin as [Hin|Hin]; [| contradiction].
      apply elem_of_singleton in Hin. congruence.
Qed.

Lemma act_keeps_latest (l : Lib.Limiter) (a : Action) (w w' : World) :
  act l a w = Some (tt, w') -> handle_is_latest w -> handle_is_latest w'.
Proof.
  intros Ha Hl. apply act_effect in Ha. unfold handle_is_latest in *.
  destruct Ha as [(_ & Ec & _ & Eh)
                 |[(v & _ & Ec & _ & Eh)
                 |[(id & _ & _ & Ec & _ & Eh)
                 |(id & _ & _ & Ec & _ & Eh)]]];
    rewrite Ec, Eh; auto.
Qed.

Lemma acts_keep (P : World -> Prop) (l : Lib.Limiter) :
  (forall (a : Action) (w w' : World),
     act l a w = Some (tt, w') -> P w -> P w') ->
  forall (s : list Action) (w w' : World),
    acts l s w = Some (tt, w') -> P w -> P w'.
Proof.
  intros Hstep. induction s as [|a s IH]; intros w w'; cbn [acts].
  - unfold rret. intros [= <-]. auto.
  - unfold rbind. destruct (act l a w) as [[[] w1]|] eqn:Ha; [| discriminate].
    intros Hs Hw. eapply IH; [exact Hs |]. eapply Hstep; eauto.
Qed.

Lemma call_effect (l : Lib.Limiter) (h : nat) (w w' : World) :
  act l (Call h) w = Some (tt, w') ->
  exists v : Z,
    timers w' = <[created w := v]> (timers w) /\
    created w' = S (created w) /\
    resolved w' = resolved w /\ timeoutId w' = Some (created w).
Proof.
  cbn [act]. unfold rbind. rewrite rateLimiter_call_eq.
  destruct (generators w !! h) as [g|]; [| discriminate].
  destruct (Tracker.next (g_rpm g) (g_minuteMs g) (g_state g) (clock w))
    as [[v st] c].
  unfold rret. intros [= <-]. exists v. cbn. auto.
Qed.

(** X15: [clear()] leaves the caller of the latest call suspended for
    good.  When an operation is called and [clear()] is called next,
    then whatever is done with the limiter afterwards, the timeout of
    that call cannot run and the promise the caller awaits is not
    resolved. *)
Theorem clear_suspends_the_latest_call
    (l : Lib.Limiter) (h : nat) (s : list Action) (w w' : World) :
  ids_below_created w ->
  acts l (Call h :: Clear :: s) w = Some (tt, w') ->
  (created w ∉ resolved w') /\ fire (created w) w' = None.
Proof.
  intros [_ Hres] Hs. cbn [acts] in Hs. unfold rbind at 1 in Hs.
  destruct (act l (Call h) w) as [[[] w1]|] eqn:H1; [| discriminate].
  unfold rbind at 1 in Hs.
  destruct (act l Clear w1) as [[[] w2]|] eqn:H2; [| discriminate].
  apply call_effect in H1 as (v & Et & Ec & Er & Eh).
  cbn [act] in H2. unfold Lib.clear in H2. rewrite clearWaitFor_eq, Eh in H2.
  injection H2 as <-.
  assert (Hc : cancelled (created w) w').
  { eapply (acts_keep (cancelled (created w)) l); [| exact Hs |].
    - intros a x x'. apply act_keeps_cancelled.
    - split; [cbn; lia |]. split; [cbn; apply lookup_delete_eq |].
      cbn. rewrite Er. intros Hin. apply Hres in Hin. lia. }
  destruct Hc as (_ & Hgone & Hnot). split; [exact Hnot |].
  unfold fire. rewrite Hgone. reflexivity.
Qed.

(** X16: in every session that begins with a new limiter, the handle
    the executor holds is that of the timeout created last, which is the
    timeout of the latest call: that is the one [clear()] unschedules. *)
Theorem handle_is_of_the_latest_call
    (l : Lib.Limiter) (s : list Action) (c : Clock) (w' : World) :
  acts l s (fresh_world c) = Some (tt, w') ->
  handle_is_latest w' /\ ids_below_created w'.
Proof.
  intros Hs. split.
  - eapply (acts_keep handle_is_latest l); [| exact Hs | reflexivity].
    intros a x x'. apply act_keeps_latest.
  - eapply (acts_keep ids_below_created l);
      [| exact Hs | apply fresh_world_ids].
    intros a x x'. apply act_keeps_ids.
Qed.

(** X17: awaited calls leave no timeout behind.  After [n] calls of one
    operation, each awaited until its timeout has fired, the table of
    scheduled timeouts is what it was before, [n] timeouts have been
    created, and the promises of all of them are resolved. *)
Theorem awaited_calls_leave_no_timeout (h : nat) (n : nat) :
  forall (w : World) (g : Generator),
    ids_below_created w ->
    generators w !! h = Some g ->
    exists (vs : list Z) (w' : World),
      await_n n h w = Some (vs, w') /\
      timers w' = timers w /\
      created w' = (created w + n)%nat /\
      (forall id : nat,
         id ∈ resolved w' <->
         id ∈ resolved w \/ (created w <= id < created w + n)%nat) /\
      ids_below_created w'.
Proof.
  induction n as [|n IH]; intros w g Hids Hg.
  - exists [], w. split; [reflexivity |]. split; [reflexivity |].
    split; [lia |]. split; [| exact Hids].
    intros id. split; [auto | intros [H|H]; [exact H | lia]].
  - cbn [await_n]. unfold rbind at 1.
    rewrite (await_rateLimiter_eq h w g Hg).
    destruct (Tracker.next (g_rpm g) (g_minuteMs g) (g_state g) (clock w))
      as [[v st] c].
    set (g1 := {| g_rpm := g_rpm g; g_minuteMs := g_minuteMs g; g_state := st |}).
    set (w1 := {| clock := c; timers := _; created := _; resolved := _;
                  timeoutId := _; generators := _ |}).
    assert (Hfree : timers w !! created w = None).
    { destruct (timers w !! created w) eqn:E; [| reflexivity].
      destruct Hids as [Ht _]. specialize (Ht (created w) ltac:(eauto)). lia. }
    assert (Et : timers w1 = timers w).
    { subst w1. cbn. rewrite delete_insert_eq. apply delete_id. exact Hfree. }
    assert (Hids1 : ids_below_created w1).
    { destruct Hids as [Ht Hr]. split; intros j Hj.
      - rewrite Et in Hj. apply Ht in Hj. subst w1. cbn. lia.
      - subst w1. cbn in *. apply elem_of_union in Hj as [Hj|Hj].
        + apply elem_of_singleton in Hj. lia.
        + apply Hr in Hj. lia. }
    assert (Hg1 : generators w1 !! h = Some g1).
    { subst w1. cbn. apply list_lookup_insert_eq.
      eapply lookup_lt_Some; exact Hg. }
    destruct (IH w1 g1 Hids1 Hg1) as (vs & w' & Hrun & Et' & Ec' & Er' & Hids').
    exists (v :: vs), w'. unfold rbind. rewrite Hrun.
    split; [reflexivity |]. split; [congruence |].
    split; [rewrite Ec'; subst w1; cbn; lia |]. split; [| exact Hids'].
    intros id. rewrite Er'. subst w1. cbn.
    rewrite elem_of_union, elem_of_singleton.
    generalize (id ∈ resolved w). clear. intros P.
    split; [intros [[H|H]|H] | intros [H|H]]; try (left; lia); try lia;
      auto.
Qed.

End SessionFacts.

(** A call of the first operation of a limiter, [clear()], and then a
    second call whose timeout fires. *)
Lemma clear_suspends_the_latest_call_witness :
  ids_below_created (limiter_world 1 3 250 (stopped_clock 1000)) /\
  match
    Session.acts {| Lib.rpm := 3; Lib.minuteMs := 250 |}
      [Session.Call 0; Session.Clear; Session.Call 0; Session.Fire 1]
      (limiter_world 1 3 250 (stopped_clock 1000))
  with
  | Some (_, w') =>
      (created (limiter_world 1 3 250 (stopped_clock 1000)) ∉ resolved w') /\
      fire (created (limiter_world 1 3 250 (stopped_clock 1000))) w' = None
  | None => False
  end.
Proof.
  assert (H : ids_below_created (limiter_world 1 3 250 (stopped_clock 1000))).
  { split; intros id Hid; cbn in Hid.
    - rewrite lookup_empty in Hid. destruct Hid as [? Hid]. discriminate.
    - apply not_elem_of_empty in Hid. destruct Hid. }
  split; [exact H |].
  destruct (Session.acts {| Lib.rpm := 3; Lib.minuteMs := 250 |}
              [Session.Call 0; Session.Clear; Session.Call 0; Session.Fire 1]
              (limiter_world 1 3 250 (stopped_clock 1000)))
    as [[[] w']|] eqn:E.
  - exact (clear_suspends_the_latest_call _ _ _ _ _ H E).
  - vm_compute in E. discriminate.
Defined.

(** A session in which two operations are obtained and called, the
    timeout of the first call fires and [clear()] is called. *)
Lemma handle_is_of_the_latest_call_witness :
  match
    Session.acts {| Lib.rpm := 3; Lib.minuteMs := 250 |}
      [Session.Access; Session.Access; Session.Call 0; Session.Call 1;
       Session.Fire 0; Session.Clear]
      (fresh_world (stopped_clock 1000))
  with
  | Some (_, w') => Session.handle_is_latest w' /\ ids_below_created w'
  | None => False
  end.
Proof.
  destruct (Session.acts {| Lib.rpm := 3; Lib.minuteMs := 250 |}
              [Session.Access; Session.Access; Session.Call 0; Session.Call 1;
               Session.Fire 0; Session.Clear]
              (fresh_world (stopped_clock 1000)))
    as [[[] w']|] eqn:E.
  - exact (handle_is_of_the_latest_call _ _ _ _ E).
  - vm_compute in E. discriminate.
Defined.

(** Four awaited calls of the first operation of a limiter. *)
Lemma awaited_calls_leave_no_timeout_witness :
  exists (vs : list Z) (w' : World),
    await_n 4 0 (limiter_world 1 3 250 (stopped_clock 1000)) = Some (vs, w') /\
    timers w' = timers (limiter_world 1 3 250 (stopped_clock 1000)).
Proof.
  assert (H : ids_below_created (limiter_world 1 3 250 (stopped_clock 1000))).
  { split; intros id Hid; cbn in Hid.
    - rewrite lookup_empty in Hid. destruct Hid as [? Hid]. discriminate.
    - apply not_elem_of_empty in Hid. destruct Hid. }
  destruct (awaited_calls_leave_no_timeout 0 4
              (limiter_world 1 3 250 (stopped_clock 1000)) _ H eq_refl)
    as (vs & w' & Hrun & Et & _).
  exists vs, w'. split; [exact Hrun | exact Et].
Defined.

(** * Binary64

    The numbers of JavaScript are binary64 floats.  On whole numbers
    below 2^53 in absolute value their sums, differences, products,
    exact quotients and comparisons are those of the integers; this part
    proves it from the specification of the floating-point operations
    and carries the properties of the generator over to its binary64
    form. *)

(** ** Whole numbers below 2^53 *)

Section Binary64Facts.

Import Int53.

(** The number of binary digits of a mantissa. *)
Lemma digits2_size (p : positive) : digits2_pos p = Pos.size p.
Proof. induction p; cbn; congruence. Qed.

Lemma digits2_log2 (p : positive) :
  Zpos (digits2_pos p) = Z.log2 (Zpos p) + 1.
Proof.
  rewrite digits2_size. destruct p as [p|p|]; cbn [Pos.size Z.log2]; lia.
Qed.

Lemma digits2_bounds (p : positive) :
  2 ^ (Zpos (digits2_pos p) - 1) <= Zpos p < 2 ^ Zpos (digits2_pos p).
Proof.
  rewrite digits2_log2.
  pose proof (Z.log2_spec (Zpos p) ltac:(lia)) as H.
  replace (Z.log2 (Zpos p) + 1 - 1) with (Z.log2 (Zpos p)) by lia.
  replace (Z.log2 (Zpos p) + 1) with (Z.succ (Z.log2 (Zpos p))) by lia.
  exact H.
Qed.

Lemma digits2_unique (p : positive) (d : Z) :
  2 ^ (d - 1) <= Zpos p < 2 ^ d -> Zpos (digits2_pos p) = d.
Proof.
  intros H. rewrite digits2_log2.
  assert (0 <= d - 1).
  { destruct (Z.le_gt_cases 0 (d - 1)) as [|Hn]; [assumption|].
    exfalso. assert (d <= 0) by lia.
    assert (2 ^ d <= 1).
    { destruct (Z.eq_dec d 0) as [->|]; [cbn; lia|].
      rewrite Z.pow_neg_r by lia. lia. }
    lia. }
  rewrite (Z.log2_unique (Zpos p) (d - 1)); [lia | lia |].
  replace (Z.succ (d - 1)) with d by lia. exact H.
Qed.

(** Shifting a mantissa to the right loses nothing when the digits that
    go are zeros. *)
Lemma shr_1_double (k : Z) :
  0 <= k ->
  shr_1 {| shr_m := 2 * k; shr_r := false; shr_s := false |} =
  {| shr_m := k; shr_r := false; shr_s := false |}.
Proof. intros Hk. destruct k as [|p|p]; [reflexivity | reflexivity | lia]. Qed.

Lemma iter_shr_exact (n : positive) :
  forall q : Z,
    0 <= q ->
    SpecFloat.iter_pos shr_1 n
      {| shr_m := q * 2 ^ Zpos n; shr_r := false; shr_s := false |} =
    {| shr_m := q; shr_r := false; shr_s := false |}.
Proof.
  induction n as [n IH|n IH|]; intros q Hq; cbn [SpecFloat.iter_pos].
  - assert (Hp : 0 < 2 ^ Zpos n) by (apply Z.pow_pos_nonneg; lia).
    replace (q * 2 ^ Zpos n~1) with (2 * (q * 2 ^ Zpos n * 2 ^ Zpos n)).
    2:{ replace (Zpos n~1) with (1 + Zpos n + Zpos n) by lia.
        rewrite !Z.pow_add_r, Z.pow_1_r by lia. ring. }
    rewrite shr_1_double by nia.
    rewrite IH by nia. apply IH. exact Hq.
  - assert (Hp : 0 < 2 ^ Zpos n) by (apply Z.pow_pos_nonneg; lia).
    replace (q * 2 ^ Zpos n~0) with (q * 2 ^ Zpos n * 2 ^ Zpos n).
    2:{ replace (Zpos n~0) with (Zpos n + Zpos n) by lia.
        rewrite !Z.pow_add_r by lia. ring. }
    rewrite IH by nia. apply IH. exact Hq.
  - change (2 ^ 1) with 2. rewrite Z.mul_comm. apply shr_1_double. exact Hq.
Qed.

(** Shifting a mantissa to the left. *)
Lemma iter_xO (d : positive) (p : positive) :
  Zpos (Pos.iter xO p d) = Zpos p * 2 ^ Zpos d.
Proof.
  revert p. induction d as [d IH|d IH|]; intros p; cbn [Pos.iter].
  - rewrite Pos2Z.inj_xO, !IH.
    replace (Zpos d~1) with (1 + Zpos d + Zpos d) by lia.
    rewrite !Z.pow_add_r, Z.pow_1_r by lia. ring.
  - rewrite !IH. replace (Zpos d~0) with (Zpos d + Zpos d) by lia.
    rewrite !Z.pow_add_r by lia. ring.
  - rewrite Pos2Z.inj_xO. change (2 ^ 1) with 2. ring.
Qed.

Lemma digits2_shift (q : positive) (k : Z) (p : positive) :
  0 <= k -> Zpos p = Zpos q * 2 ^ k ->
  Zpos (digits2_pos p) = Zpos (digits2_pos q) + k.
Proof.
  intros Hk Hp. apply digits2_unique. rewrite Hp.
  pose proof (digits2_bounds q) as [Hlo Hhi].
  assert (Hd : 1 <= Zpos (digits2_pos q)) by lia.
  replace (Zpos (digits2_pos q) + k - 1) with (Zpos (digits2_pos q) - 1 + k) by lia.
  rewrite !Z.pow_add_r by lia.
  assert (0 < 2 ^ k) by (apply Z.pow_pos_nonneg; lia).
  split; nia.
Qed.

Lemma fexp_normal (e : Z) :
  -1074 <= e -> fexp prec emax (53 + e) = e.
Proof. intros H. unfold fexp, SpecFloat.emin, prec, emax. lia. Qed.

(** Rounding returns a number that has a 53-bit mantissa unchanged,
    whatever mantissa and exponent it is given with. *)
Lemma binary_round_aux_exact (s : bool) (p q : positive) (e e' : Z) :
  Zpos (digits2_pos q) = 53 ->
  -1074 <= e' <= 971 ->
  e <= e' ->
  Zpos p = Zpos q * 2 ^ (e' - e) ->
  binary_round_aux prec emax s (Zpos p) e loc_Exact = S754_finite s q e'.
Proof.
  intros Hq He' Hle Hp.
  assert (Hdp : Zpos (digits2_pos p) = 53 + (e' - e)).
  { rewrite <- Hq. apply digits2_shift; [lia | exact Hp]. }
  unfold binary_round_aux, shr_fexp. cbn [Zdigits2 shr_record_of_loc].
  rewrite Hdp. replace (53 + (e' - e) + e) with (53 + e') by lia.
  rewrite fexp_normal by lia.
  assert (Hshr : shr {| shr_m := Zpos p; shr_r := false; shr_s := false |} e (e' - e) =
                 ({| shr_m := Zpos q; shr_r := false; shr_s := false |}, e')).
  { unfold shr. destruct (e' - e) as [|n|n] eqn:En; try lia.
    - rewrite Z.pow_0_r, Z.mul_1_r in Hp. injection Hp as ->.
      f_equal. lia.
    - rewrite Hp, iter_shr_exact by lia. f_equal. lia. }
  rewrite Hshr. cbn [shr_m loc_of_shr_record round_nearest_even Zdigits2
                     shr_record_of_loc].
  rewrite Hq, fexp_normal by lia. rewrite Z.sub_diag. cbn [shr shr_m].
  destruct (Z.leb_spec e' (emax - prec)) as [_|H]; [reflexivity |].
  unfold emax, prec in H. lia.
Qed.

Lemma binary_round_exact (s : bool) (p q : positive) (e e' : Z) :
  Zpos (digits2_pos q) = 53 ->
  -1074 <= e' <= 971 ->
  (e <= e' /\ Zpos p = Zpos q * 2 ^ (e' - e)) \/
  (e' < e /\ Zpos q = Zpos p * 2 ^ (e - e')) ->
  binary_round prec emax s p e = S754_finite s q e'.
Proof.
  intros Hq He' [[Hle Hp]|[Hlt Hp]]; unfold binary_round.
  - assert (Hdp : Zpos (digits2_pos p) = 53 + (e' - e)).
    { rewrite <- Hq. apply digits2_shift; [lia | exact Hp]. }
    rewrite Hdp. replace (53 + (e' - e) + e) with (53 + e') by lia.
    rewrite fexp_normal by lia.
    unfold shl_align. destruct (e' - e) as [|n|n] eqn:En; try lia.
    + apply binary_round_aux_exact; try assumption.
      rewrite En. exact Hp.
    + apply binary_round_aux_exact; try assumption.
      rewrite En. exact Hp.
  - assert (Hdq : Zpos (digits2_pos q) = Zpos (digits2_pos p) + (e - e')).
    { apply digits2_shift; [lia | exact Hp]. }
    replace (Zpos (digits2_pos p) + e) with (53 + e') by lia.
    rewrite fexp_normal by lia.
    unfold shl_align. destruct (e' - e) as [|n|n] eqn:En; try lia.
    assert (Hn : Zpos n = e - e') by lia.
    assert (Eq : Pos.iter xO p n = q).
    { apply Pos2Z.inj. rewrite iter_xO, Hn. symmetry. exact Hp. }
    rewrite Eq. apply binary_round_aux_exact; try assumption; [lia |].
    rewrite Z.sub_diag, Z.pow_0_r. lia.
Qed.

(** The whole numbers below 2^53: their exponent is between -52 and 0
    and their mantissa has 53 bits. *)
Lemma expo_range (z : Z) : z <> 0 -> small z -> -52 <= expo z <= 0.
Proof.
  intros Hz Hs. unfold expo, small in *.
  pose proof (Z.log2_nonneg (Z.abs z)).
  assert (Z.log2 (Z.abs z) < 53) by (apply Z.log2_lt_pow2; lia).
  lia.
Qed.

Lemma mant_spec (z : Z) :
  z <> 0 -> small z ->
  Zpos (mant z) = Z.abs z * 2 ^ (- expo z) /\
  Zpos (digits2_pos (mant z)) = 53.
Proof.
  intros Hz Hs. pose proof (expo_range z Hz Hs) as He.
  assert (Hpos : 0 < Z.abs z * 2 ^ (- expo z)).
  { apply Z.mul_pos_pos; [lia | apply Z.pow_pos_nonneg; lia]. }
  assert (E : Zpos (mant z) = Z.abs z * 2 ^ (- expo z)).
  { unfold mant. rewrite Z2Pos.id; [reflexivity | exact Hpos]. }
  split; [exact E |].
  apply digits2_unique. rewrite E.
  pose proof (Z.log2_spec (Z.abs z) ltac:(lia)) as [Hlo Hhi].
  unfold expo in *.
  set (l := Z.log2 (Z.abs z)) in *.
  replace (- (l - 52)) with (52 - l) by lia.
  assert (Hl : 0 <= l) by (apply Z.log2_nonneg).
  assert (E1 : 2 ^ (53 - 1) = 2 ^ l * 2 ^ (52 - l)).
  { rewrite <- Z.pow_add_r by lia. f_equal. lia. }
  assert (E2 : 2 ^ 53 = 2 ^ Z.succ l * 2 ^ (52 - l)).
  { rewrite <- Z.pow_add_r by lia. f_equal. lia. }
  rewrite E1, E2.
  assert (0 < 2 ^ (52 - l)) by (apply Z.pow_pos_nonneg; lia).
  split; nia.
Qed.

(** Rounding a whole number below 2^53 gives that number. *)
Lemma round_int (s : bool) (p : positive) (e : Z) (z : Z) :
  z <> 0 -> small z ->
  (0 <= e /\ Z.abs z = Zpos p * 2 ^ e) \/ (e < 0 /\ Zpos p = Z.abs z * 2 ^ (- e)) ->
  binary_round prec emax s p e = S754_finite s (mant z) (expo z).
Proof.
  intros Hz Hs Hrep.
  pose proof (expo_range z Hz Hs) as He.
  destruct (mant_spec z Hz Hs) as [Em Ed].
  apply binary_round_exact; [exact Ed | lia |].
  destruct Hrep as [[He0 Hp]|[He0 Hp]].
  - destruct (Z.eq_dec (expo z) e) as [Heq|Hne].
    + left. split; [lia |].
      assert (E0 : expo z = 0) by lia. assert (E1 : e = 0) by lia.
      rewrite Em, Hp, E0, E1. cbn. lia.
    + right. split; [lia |]. rewrite Em, Hp.
      replace (e - expo z) with (e + - expo z) by lia.
      rewrite Z.pow_add_r by lia. ring.
  - destruct (Z.le_gt_cases e (expo z)) as [Hle|Hgt].
    + left. split; [exact Hle |]. rewrite Em, Hp.
      rewrite <- Z.mul_assoc, <- Z.pow_add_r by lia. do 2 f_equal. lia.
    + right. split; [exact Hgt |]. rewrite Em, Hp.
      rewrite <- Z.mul_assoc, <- Z.pow_add_r by lia. do 2 f_equal. lia.
Qed.

Lemma normalize_int (m e z : Z) :
  small z -> e <= 0 -> m = z * 2 ^ (- e) ->
  binary_normalize prec emax m e false = canonZ z.
Proof.
  intros Hs He Hm.
  assert (Hp : 0 < 2 ^ (- e)) by (apply Z.pow_pos_nonneg; lia).
  destruct z as [|pz|pz].
  - subst m. reflexivity.
  - destruct m as [|pm|pm]; try nia. cbn [binary_normalize canonZ].
    apply round_int; [discriminate | exact Hs |].
    destruct (Z.eq_dec e 0) as [->|Hne].
    + left. split; [lia |]. cbn in Hm |- *. lia.
    + right. split; [lia |]. cbn [Z.abs]. exact Hm.
  - destruct m as [|pm|pm]; try nia. cbn [binary_normalize canonZ].
    apply round_int; [discriminate | exact Hs |].
    destruct (Z.eq_dec e 0) as [->|Hne].
    + left. split; [lia |]. cbn in Hm |- *. lia.
    + right. split; [lia |]. cbn [Z.abs]. lia.
Qed.

Lemma canonZ_finite (z : Z) :
  z <> 0 -> canonZ z = S754_finite (z <? 0) (mant z) (expo z).
Proof. destruct z; [congruence | reflexivity | reflexivity]. Qed.

Lemma signed_mant (z : Z) :
  z <> 0 -> small z ->
  cond_Zopp (z <? 0) (Zpos (mant z)) = z * 2 ^ (- expo z).
Proof.
  intros Hz Hs. destruct (mant_spec z Hz Hs) as [Em _]. rewrite Em.
  destruct z; [congruence | cbn [Z.ltb Z.compare cond_Zopp Z.abs]; reflexivity |].
  cbn [Z.ltb Z.compare cond_Zopp Z.abs]. lia.
Qed.

Lemma shl_align_val (mx : positive) (ex ez : Z) :
  ez <= ex ->
  Zpos (fst (shl_align mx ex ez)) = Zpos mx * 2 ^ (ex - ez).
Proof.
  intros H. unfold shl_align.
  destruct (ez - ex) as [|d|d] eqn:E; try lia; cbn [fst].
  - replace (ex - ez) with 0 by lia. lia.
  - rewrite iter_xO. f_equal. f_equal. lia.
Qed.

Lemma cond_Zopp_mul (s : bool) (x y : Z) :
  cond_Zopp s (x * y) = cond_Zopp s x * y.
Proof. destruct s; cbn; lia. Qed.

Lemma aligned (z : Z) (ez : Z) :
  z <> 0 -> small z -> ez <= expo z ->
  cond_Zopp (z <? 0) (Zpos (fst (shl_align (mant z) (expo z) ez))) =
  z * 2 ^ (- ez).
Proof.
  intros Hz Hs He. pose proof (expo_range z Hz Hs).
  rewrite shl_align_val by exact He.
  rewrite cond_Zopp_mul, signed_mant by assumption.
  rewrite <- Z.mul_assoc, <- Z.pow_add_r by lia. do 2 f_equal. lia.
Qed.

(** Sums and differences that stay below 2^53 are exact. *)
Lemma add_int (a b : Z) :
  small a -> small b -> small (a + b) ->
  SF64add (canonZ a) (canonZ b) = canonZ (a + b).
Proof.
  intros Ha Hb Hab.
  destruct (Z.eq_dec a 0) as [->|Hna].
  { cbn [canonZ SF64add SFadd Z.add]. unfold SF64add, SFadd.
    destruct b; reflexivity. }
  destruct (Z.eq_dec b 0) as [->|Hnb].
  { rewrite Z.add_0_r. unfold SF64add, SFadd. destruct a; try congruence; reflexivity. }
  rewrite (canonZ_finite a Hna), (canonZ_finite b Hnb).
  unfold SF64add, SFadd.
  pose proof (expo_range a Hna Ha). pose proof (expo_range b Hnb Hb).
  rewrite !aligned by (assumption || lia).
  apply normalize_int; [exact Hab | lia | ring].
Qed.

Lemma sub_int (a b : Z) :
  small a -> small b -> small (a - b) ->
  SF64sub (canonZ a) (canonZ b) = canonZ (a - b).
Proof.
  intros Ha Hb Hab.
  destruct (Z.eq_dec b 0) as [->|Hnb].
  { rewrite Z.sub_0_r. unfold SF64sub, SFsub. destruct a; reflexivity. }
  destruct (Z.eq_dec a 0) as [->|Hna].
  { unfold SF64sub, SFsub. destruct b; try congruence; reflexivity. }
  rewrite (canonZ_finite a Hna), (canonZ_finite b Hnb).
  unfold SF64sub, SFsub.
  pose proof (expo_range a Hna Ha). pose proof (expo_range b Hnb Hb).
  rewrite !aligned by (assumption || lia).
  apply normalize_int; [exact Hab | lia | ring].
Qed.

(** Comparisons are those of the integers. *)
Lemma cmp_pos (a b : Z) :
  0 < a -> 0 < b -> small a -> small b ->
  match expo a ?= expo b with
  | Lt => Lt
  | Gt => Gt
  | Eq => Pos.compare_cont Eq (mant a) (mant b)
  end = (a ?= b).
Proof.
  intros Ha Hb Sa Sb.
  destruct (mant_spec a ltac:(lia) Sa) as [Ema Eda].
  destruct (mant_spec b ltac:(lia) Sb) as [Emb Edb].
  pose proof (digits2_bounds (mant a)) as Ba. rewrite Eda in Ba.
  pose proof (digits2_bounds (mant b)) as Bb. rewrite Edb in Bb.
  pose proof (expo_range a ltac:(lia) Sa) as Ra.
  pose proof (expo_range b ltac:(lia) Sb) as Rb.
  rewrite Z.abs_eq in Ema, Emb by lia.
  change (2 ^ (53 - 1)) with (2 ^ 52) in *.
  destruct (Z.compare_spec (expo a) (expo b)) as [E|E|E].
  - change (Pos.compare_cont Eq (mant a) (mant b)) with (Zpos (mant a) ?= Zpos (mant b)).
    rewrite Ema, Emb, E.
    symmetry. apply Zmult_compare_compat_r.
    apply Z.lt_gt. apply Z.pow_pos_nonneg; lia.
  - symmetry. apply Z.compare_lt_iff.
    assert (Ek : 2 ^ (- expo a) = 2 ^ (- expo b) * 2 ^ (expo b - expo a)).
    { rewrite <- Z.pow_add_r by lia. f_equal. lia. }
    assert (H2 : 2 <= 2 ^ (expo b - expo a)).
    { change 2 with (2 ^ 1) at 1. apply Z.pow_le_mono_r; lia. }
    assert (0 < 2 ^ (- expo b)) by (apply Z.pow_pos_nonneg; lia).
    rewrite Ek in Ema. nia.
  - symmetry. apply Z.compare_gt_iff.
    assert (Ek : 2 ^ (- expo b) = 2 ^ (- expo a) * 2 ^ (expo a - expo b)).
    { rewrite <- Z.pow_add_r by lia. f_equal. lia. }
    assert (H2 : 2 <= 2 ^ (expo a - expo b)).
    { change 2 with (2 ^ 1) at 1. apply Z.pow_le_mono_r; lia. }
    assert (0 < 2 ^ (- expo a)) by (apply Z.pow_pos_nonneg; lia).
    rewrite Ek in Emb. nia.
Qed.

Lemma small_opp (z : Z) : small z -> small (- z).
Proof. unfold small. rewrite Z.abs_opp. auto. Qed.

Lemma compare_int (a b : Z) :
  small a -> small b ->
  SFcompare (canonZ a) (canonZ b) = Some (a ?= b).
Proof.
  intros Sa Sb.
  destruct a as [|pa|pa], b as [|pb|pb]; try reflexivity.
  - cbn [canonZ SFcompare]. f_equal. apply (cmp_pos (Zpos pa) (Zpos pb)); auto; lia.
  - cbn [canonZ SFcompare]. f_equal.
    pose proof (cmp_pos (Zpos pa) (Zpos pb) ltac:(lia) ltac:(lia)
                  (small_opp _ Sa) (small_opp _ Sb)) as H.
    change (expo (Zneg pa)) with (expo (Zpos pa)).
    change (expo (Zneg pb)) with (expo (Zpos pb)).
    change (mant (Zneg pa)) with (mant (Zpos pa)).
    change (mant (Zneg pb)) with (mant (Zpos pb)).
    change (Zneg pa ?= Zneg pb) with (CompOpp (Zpos pa ?= Zpos pb)).
    rewrite <- H.
    destruct (expo (Zpos pa) ?= expo (Zpos pb)); reflexivity.
Qed.

(** [float_of_Z] is exact below 2^53. *)
Lemma of_uint63_int (z : Z) :
  0 <= z -> small z -> Prim2SF (of_uint63 (Uint63.of_Z z)) = canonZ z.
Proof.
  intros Hz Hs. rewrite of_uint63_spec.
  assert (E : Uint63Axioms.to_Z (Uint63.of_Z z) = z).
  { rewrite Uint63.of_Z_spec. apply Z.mod_small. unfold small in Hs.
    split; [exact Hz |]. apply Z.lt_trans with (2 ^ 53); [lia |].
    reflexivity. }
  rewrite E. apply normalize_int; [exact Hs | lia | cbn; lia].
Qed.

Lemma float_of_Z_spec (z : Z) :
  small z -> Prim2SF (Whole.float_of_Z z) = canonZ z.
Proof.
  intros Hs. unfold Whole.float_of_Z. destruct (Z.ltb_spec z 0) as [Hneg|Hpos].
  - rewrite opp_spec, of_uint63_int by (try apply small_opp; auto; lia).
    destruct z as [|p|p]; try lia. reflexivity.
  - apply of_uint63_int; assumption.
Qed.

(** The operations of binary64 on whole numbers below 2^53. *)
Lemma add_exact (a b : Z) :
  small a -> small b -> small (a + b) ->
  (Whole.float_of_Z a + Whole.float_of_Z b)%float = Whole.float_of_Z (a + b).
Proof.
  intros Ha Hb Hab. apply Prim2SF_inj.
  rewrite add_spec, !float_of_Z_spec by assumption. apply add_int; assumption.
Qed.

Lemma sub_exact (a b : Z) :
  small a -> small b -> small (a - b) ->
  (Whole.float_of_Z a - Whole.float_of_Z b)%float = Whole.float_of_Z (a - b).
Proof.
  intros Ha Hb Hab. apply Prim2SF_inj.
  rewrite sub_spec, !float_of_Z_spec by assumption. apply sub_int; assumption.
Qed.

Lemma ltb_exact (a b : Z) :
  small a -> small b ->
  (Whole.float_of_Z a <? Whole.float_of_Z b)%float = (a <? b).
Proof.
  intros Ha Hb. rewrite ltb_spec, !float_of_Z_spec by assumption.
  unfold SFltb. rewrite compare_int by assumption.
  unfold Z.ltb. destruct (a ?= b); reflexivity.
Qed.

Lemma leb_exact (a b : Z) :
  small a -> small b ->
  (Whole.float_of_Z a <=? Whole.float_of_Z b)%float = (a <=? b).
Proof.
  intros Ha Hb. rewrite leb_spec, !float_of_Z_spec by assumption.
  unfold SFleb. rewrite compare_int by assumption.
  unfold Z.leb. destruct (a ?= b); reflexivity.
Qed.

Lemma eqb_exact (a b : Z) :
  small a -> small b ->
  (Whole.float_of_Z a =? Whole.float_of_Z b)%float = (a =? b).
Proof.
  intros Ha Hb. rewrite FloatAxioms.eqb_spec, !float_of_Z_spec by assumption.
  unfold SFeqb. rewrite compare_int by assumption.
  rewrite Z.eqb_compare. destruct (a ?= b); reflexivity.
Qed.

(** Products below 2^53 are exact, and so are the quotients that give
    back a factor. *)
Lemma small_mul_l (a b : Z) : b <> 0 -> small (a * b) -> small a.
Proof. unfold small. rewrite Z.abs_mul. intros. nia. Qed.

Lemma small_mul_r (a b : Z) : a <> 0 -> small (a * b) -> small b.
Proof. unfold small. rewrite Z.abs_mul. intros. nia. Qed.

Lemma sign_mul (a b : Z) :
  a <> 0 -> b <> 0 -> xorb (a <? 0) (b <? 0) = (a * b <? 0).
Proof. destruct a, b; try congruence; reflexivity. Qed.

Lemma expo_mul (a b : Z) :
  a <> 0 -> b <> 0 ->
  expo a + expo b + 52 <= expo (a * b) <= expo a + expo b + 53.
Proof.
  intros Ha Hb. unfold expo. rewrite Z.abs_mul.
  assert (H1 := Z.log2_mul_below (Z.abs a) (Z.abs b)).
  assert (H2 := Z.log2_mul_above (Z.abs a) (Z.abs b)).
  assert (0 < Z.abs a) by lia. assert (0 < Z.abs b) by lia.
  specialize (H1 ltac:(assumption) ltac:(assumption)).
  specialize (H2 ltac:(lia) ltac:(lia)). lia.
Qed.

Lemma mul_int (a b : Z) :
  a <> 0 -> b <> 0 -> small (a * b) ->
  SF64mul (canonZ a) (canonZ b) = canonZ (a * b).
Proof.
  intros Ha Hb Hab.
  assert (Sa : small a) by exact (small_mul_l a b Hb Hab).
  assert (Sb : small b) by exact (small_mul_r a b Ha Hab).
  assert (Hn : a * b <> 0) by nia.
  rewrite (canonZ_finite a Ha), (canonZ_finite b Hb), (canonZ_finite _ Hn).
  unfold SF64mul, SFmul. rewrite sign_mul by assumption.
  destruct (mant_spec a Ha Sa) as [Ea _].
  destruct (mant_spec b Hb Sb) as [Eb _].
  destruct (mant_spec _ Hn Hab) as [Eab Dab].
  pose proof (expo_range a Ha Sa). pose proof (expo_range b Hb Sb).
  pose proof (expo_range _ Hn Hab). pose proof (expo_mul a b Ha Hb).
  apply binary_round_aux_exact; [exact Dab | lia | lia |].
  rewrite Pos2Z.inj_mul, Ea, Eb, Eab, Z.abs_mul.
  rewrite <- (Z.mul_assoc _ (2 ^ (- expo (a * b)))), <- Z.pow_add_r by lia.
  replace (- expo (a * b) + (expo (a * b) - (expo a + expo b)))
    with (- expo a + - expo b) by lia.
  rewrite Z.pow_add_r by lia. ring.
Qed.

Lemma div_eucl_exact (q m : Z) : 0 < m -> Z.div_eucl (q * m) m = (q, 0).
Proof.
  intros Hm. pose proof (Z.div_mul q m ltac:(lia)) as Hd.
  pose proof (Z.mod_mul q m ltac:(lia)) as Hr.
  unfold Z.div, Z.modulo in *. destruct (Z.div_eucl (q * m) m) as [q' r'].
  congruence.
Qed.

Lemma sign_div (z n : Z) :
  z <> 0 -> n <> 0 -> xorb (z * n <? 0) (n <? 0) = (z <? 0).
Proof. destruct z, n; try congruence; reflexivity. Qed.

Lemma div_int (z n : Z) :
  z <> 0 -> n <> 0 -> small (z * n) ->
  SF64div (canonZ (z * n)) (canonZ n) = canonZ z.
Proof.
  intros Hz Hn Hzn.
  assert (Sz : small z) by exact (small_mul_l z n Hn Hzn).
  assert (Sn : small n) by exact (small_mul_r z n Hz Hzn).
  assert (Hp : z * n <> 0) by nia.
  rewrite (canonZ_finite z Hz), (canonZ_finite n Hn), (canonZ_finite _ Hp).
  destruct (mant_spec z Hz Sz) as [Ez Dz].
  destruct (mant_spec n Hn Sn) as [En Dn].
  destruct (mant_spec _ Hp Hzn) as [Ezn Dzn].
  pose proof (expo_range z Hz Sz). pose proof (expo_range n Hn Sn).
  pose proof (expo_range _ Hp Hzn). pose proof (expo_mul z n Hz Hn).
  unfold SF64div, SFdiv, SFdiv_core_binary. cbn [Zdigits2].
  rewrite Dzn, Dn, sign_div by assumption.
  set (e1 := expo (z * n)) in *. set (e2 := expo n) in *.
  replace (53 + e1 - (53 + e2)) with (e1 - e2) by lia.
  assert (Hf : fexp prec emax (e1 - e2) = e1 - e2 - 53).
  { unfold fexp, SpecFloat.emin, prec, emax. lia. }
  rewrite Hf. rewrite Z.min_l by lia.
  replace (e1 - e2 - (e1 - e2 - 53)) with 53 by lia.
  assert (Hq : Z.shiftl (Zpos (mant (z * n))) 53 =
               (Z.abs z * 2 ^ (53 + e2 - e1)) * Zpos (mant n)).
  { rewrite Z.shiftl_mul_pow2 by lia. rewrite Ezn, En, Z.abs_mul.
    fold e1 e2.
    transitivity (Z.abs z * Z.abs n * (2 ^ (53 + e2 - e1) * 2 ^ (- e2)));
      [| ring].
    rewrite <- (Z.pow_add_r 2 (53 + e2 - e1)) by lia.
    replace (53 + e2 - e1 + - e2) with (- e1 + 53) by lia.
    rewrite Z.pow_add_r by lia. ring. }
  rewrite Hq, div_eucl_exact by lia.
  assert (Hloc : new_location (Zpos (mant n)) 0 = loc_Exact).
  { unfold new_location. destruct (Z.even (Zpos (mant n))); reflexivity. }
  rewrite Hloc.
  assert (Hpos : 0 < Z.abs z * 2 ^ (53 + e2 - e1)).
  { apply Z.mul_pos_pos; [lia | apply Z.pow_pos_nonneg; lia]. }
  destruct (Z.abs z * 2 ^ (53 + e2 - e1)) as [|Q|Q] eqn:EQ; try lia.
  apply binary_round_aux_exact; [exact Dz | lia | lia |].
  rewrite <- EQ, Ez.
  rewrite <- Z.mul_assoc, <- Z.pow_add_r by lia. do 2 f_equal. lia.
Qed.

Lemma mul_exact (a b : Z) :
  a <> 0 -> b <> 0 -> small (a * b) ->
  (Whole.float_of_Z a * Whole.float_of_Z b)%float = Whole.float_of_Z (a * b).
Proof.
  intros Ha Hb Hab. apply Prim2SF_inj.
  rewrite mul_spec, !float_of_Z_spec;
    [apply mul_int; assumption | exact Hab
    | exact (small_mul_r a b Ha Hab) | exact (small_mul_l a b Hb Hab)].
Qed.

Lemma div_exact (z n : Z) :
  z <> 0 -> n <> 0 -> small (z * n) ->
  (Whole.float_of_Z (z * n) / Whole.float_of_Z n)%float = Whole.float_of_Z z.
Proof.
  intros Hz Hn Hzn. apply Prim2SF_inj.
  rewrite div_spec, !float_of_Z_spec;
    [apply div_int; assumption | exact (small_mul_l z n Hn Hzn)
    | exact (small_mul_r z n Hz Hzn) | exact Hzn].
Qed.

Lemma small_abs (z : Z) : small z -> small (Z.abs z).
Proof. unfold small. rewrite Z.abs_idemp. auto. Qed.

Lemma canonZ_abs (z : Z) : SFabs (canonZ z) = canonZ (Z.abs z).
Proof. destruct z; reflexivity. Qed.

Lemma abs_exact (z : Z) :
  small z -> abs (Whole.float_of_Z z) = Whole.float_of_Z (Z.abs z).
Proof.
  intros Hz. apply Prim2SF_inj.
  rewrite abs_spec, !float_of_Z_spec by (try apply small_abs; assumption).
  apply canonZ_abs.
Qed.

(** [Math.round] returns a whole number as it is. *)
Lemma floor_whole (z : Z) : small z -> F64.floor (Whole.float_of_Z z) = Whole.float_of_Z z.
Proof.
  intros Hz. unfold F64.floor.
  change F64.two52 with (Whole.float_of_Z (2 ^ 52)).
  change 0%float with (Whole.float_of_Z 0). change 1%float with (Whole.float_of_Z 1).
  assert (S52 : small (2 ^ 52)) by (unfold small; cbn; lia).
  assert (S0 : small 0) by (unfold small; cbn; lia).
  rewrite abs_exact, ltb_exact by (try apply small_abs; assumption).
  destruct (Z.ltb_spec (Z.abs z) (2 ^ 52)) as [Hlt|Hge]; [| reflexivity].
  rewrite leb_exact by assumption.
  assert (E : (if 0 <=? z
               then (Whole.float_of_Z z + Whole.float_of_Z (2 ^ 52) - Whole.float_of_Z (2 ^ 52))%float
               else (Whole.float_of_Z z - Whole.float_of_Z (2 ^ 52) + Whole.float_of_Z (2 ^ 52))%float)
              = Whole.float_of_Z z).
  { destruct (Z.leb_spec 0 z).
    - rewrite add_exact, sub_exact; try assumption;
        try (unfold small in *; lia).
      f_equal. lia.
    - rewrite sub_exact, add_exact; try assumption;
        try (unfold small in *; lia).
      f_equal. lia. }
  rewrite E, ltb_exact, Z.ltb_irrefl by assumption. reflexivity.
Qed.

Lemma Math_round_whole (z : Z) :
  small z -> F64.Math_round (Whole.float_of_Z z) = Whole.float_of_Z z.
Proof.
  intros Hz. unfold F64.Math_round. rewrite floor_whole by assumption.
  assert (S0 : small 0) by (unfold small; cbn; lia).
  change 0%float with (Whole.float_of_Z 0) at 1 2.
  rewrite !eqb_exact by assumption.
  destruct (Z.eqb_spec z 0) as [E|N]; [reflexivity |].
  rewrite sub_exact, Z.sub_diag by (try rewrite Z.sub_diag; assumption).
  change (Whole.float_of_Z 0 <? 0.5)%float with true. cbv iota.
  rewrite eqb_exact by assumption.
  destruct (Z.eqb_spec z 0); [contradiction | reflexivity].
Qed.

(** A zero times a whole number is a zero, and divided by that number
    it is the zero it was. *)
Lemma zero_mul (q : float) (n : Z) :
  is_zero q -> n <> 0 -> small n -> is_zero (q * Whole.float_of_Z n).
Proof.
  intros Hq Hn Sn.
  assert (E : exists s, Prim2SF (q * Whole.float_of_Z n) = S754_zero s).
  { rewrite mul_spec, float_of_Z_spec, canonZ_finite by assumption.
    destruct Hq as [-> | ->]; cbn; eauto. }
  destruct E as [[|] E]; [right | left]; apply Prim2SF_inj; rewrite E;
    reflexivity.
Qed.

Lemma zero_mul_div (q : float) (n : Z) :
  is_zero q -> n <> 0 -> small n ->
  (q * Whole.float_of_Z n / Whole.float_of_Z n)%float = q.
Proof.
  intros Hq Hn Sn. apply Prim2SF_inj.
  rewrite div_spec, mul_spec, float_of_Z_spec, canonZ_finite by assumption.
  destruct Hq as [-> | ->]; cbn; destruct (n <? 0); reflexivity.
Qed.

Lemma Math_round_zero (q : float) : is_zero q -> F64.Math_round q = q.
Proof. intros [-> | ->]; reflexivity. Qed.

End Binary64Facts.

(** ** The generator on binary64 *)

Section Tracker64Facts.

Import Int53.

Import Whole.

Lemma smallb_small (z : Z) : smallb z = true <-> small z.
Proof. unfold smallb, small. apply Z.ltb_lt. Qed.

Lemma small_0 : small 0.
Proof. unfold small. cbn. lia. Qed.

Lemma small_1 : small 1.
Proof. unfold small. cbn. lia. Qed.

Lemma small_2 : small 2.
Proof. unfold small. cbn. lia. Qed.

(** The body on binary64, with its clock readings written out. *)
Lemma body64_eq (r w : float) (l : Tracker64.Locals) (c : Clock) :
  Tracker64.body r w l c =
  let now := float_of_Z (readings c (cursor c)) in
  let remainder := (Tracker64.start l + w - now)%float in
  if (remainder <? 0)%float
  then ((if (r <? 1 + 1)%float then remainder else 0%float,
         {| Tracker64.start := float_of_Z (readings c (S (cursor c)));
            Tracker64.count := (1 + 1)%float |}),
        tick (tick c))
  else ((if (r <? Tracker64.count l + 1)%float then remainder else 0%float,
         {| Tracker64.start := Tracker64.start l;
            Tracker64.count := (Tracker64.count l + 1)%float |}),
        tick c).
Proof.
  unfold Tracker64.body, tbind, Tracker64.Date_now, tret; cbn.
  repeat match goal with
         | |- context [if ?b then _ else _] => destruct b; cbn
         end; reflexivity.
Qed.

Lemma next64_eq (r w : float) (g : Tracker64.GenState) (c : Clock) :
  Tracker64.next r w g c =
  let (l, c1) := Tracker64.resume g c in
  let '(v, l', c2) := Tracker64.body r w l c1 in
  ((v, Tracker64.SuspendedYield l'), c2).
Proof.
  unfold Tracker64.next, tbind, tret.
  destruct (Tracker64.resume g c) as [l c1].
  destruct (Tracker64.body r w l c1) as [[v l'] c2]. reflexivity.
Qed.

Lemma nexts64_S (n : nat) (r w : float) (g : Tracker64.GenState) (c : Clock) :
  Tracker64.nexts (S n) r w g c =
  let '(v, g1, c1) := Tracker64.next r w g c in
  let '(vs, g2, c2) := Tracker64.nexts n r w g1 c1 in
  ((v :: vs, g2), c2).
Proof.
  cbn [Tracker64.nexts]. unfold tbind, tret.
  destruct (Tracker64.next r w g c) as [[v g1] c1]. cbn [fst snd].
  destruct (Tracker64.nexts n r w g1 c1) as [[vs g2] c2]. reflexivity.
Qed.

Lemma resume64_exact (g : Tracker.GenState) (c : Clock) :
  Tracker64.resume (Tracker64.of_state g) c =
  let (l, c1) := Tracker.resume g c in (Tracker64.of_locals l, c1).
Proof. destruct g; reflexivity. Qed.

Variables rpm minuteMs : Z.

(** Where the numbers of a call are in range the body on binary64
    computes what the body on the integers computes. *)
Lemma body_exact (l : Tracker.Locals) (c : Clock) :
  forallb smallb
    [rpm; minuteMs; Tracker.start l; Tracker.count l;
     Tracker.start l + minuteMs; readings c (cursor c);
     Tracker.start l + minuteMs - readings c (cursor c);
     if Tracker.start l + minuteMs - readings c (cursor c) <? 0
     then readings c (S (cursor c)) else Tracker.count l + 1] = true ->
  Tracker64.body (float_of_Z rpm) (float_of_Z minuteMs) (Tracker64.of_locals l) c =
    (let '(v, l', c') := Tracker.body rpm minuteMs l c in
     ((float_of_Z v, Tracker64.of_locals l'), c')) /\
  small (fst (fst (Tracker.body rpm minuteMs l c))).
Proof.
  intros H. cbn [forallb] in H.
  rewrite !andb_true_iff, !smallb_small in H.
  destruct H as (Hr & Hw & Hs & Hc & He & Hn & Hrem & Hlast & _).
  rewrite body64_eq, body_eq. cbn [Tracker64.of_locals Tracker64.start
    Tracker64.count]. cbv zeta.
  rewrite add_exact, sub_exact by assumption.
  change 0%float with (float_of_Z 0). rewrite ltb_exact by (assumption || apply small_0).
  destruct (Tracker.start l + minuteMs - readings c (cursor c) <? 0).
  - change (1 + 1)%float with (float_of_Z 2).
    rewrite ltb_exact by (assumption || apply small_2).
    rewrite Z.gtb_ltb. change (1 + 1) with 2.
    destruct (rpm <? 2); cbn [fst]; (split; [reflexivity |]);
      assumption || apply small_0.
  - change 1%float with (float_of_Z 1).
    rewrite add_exact by (assumption || apply small_1).
    rewrite ltb_exact by assumption. rewrite Z.gtb_ltb.
    destruct (rpm <? Tracker.count l + 1); cbn [fst]; (split; [reflexivity |]);
      assumption || apply small_0.
Qed.

Lemma next_exact (g : Tracker.GenState) (c : Clock) :
  Tracker64.call_in_range rpm minuteMs g c = true ->
  Tracker64.next (float_of_Z rpm) (float_of_Z minuteMs) (Tracker64.of_state g) c =
    (let '(v, g', c') := Tracker.next rpm minuteMs g c in
     ((float_of_Z v, Tracker64.of_state g'), c')) /\
  small (fst (fst (Tracker.next rpm minuteMs g c))).
Proof.
  unfold Tracker64.call_in_range. rewrite next64_eq, next_eq, resume64_exact.
  destruct (Tracker.resume g c) as [l c1]. intros H.
  destruct (body_exact l c1 H) as [E Hs]. rewrite E.
  destruct (Tracker.body rpm minuteMs l c1) as [[v l'] c2].
  split; [reflexivity | exact Hs].
Qed.

(** A run whose numbers are in range: the binary64 generator yields the
    values, and ends in the state, of the generator on the integers. *)
Lemma nexts_exact (n : nat) :
  forall (g : Tracker.GenState) (c : Clock),
    Tracker64.in_range n rpm minuteMs g c = true ->
    Tracker64.nexts n (float_of_Z rpm) (float_of_Z minuteMs) (Tracker64.of_state g) c =
      (let '(vs, g', c') := Tracker.nexts n rpm minuteMs g c in
       ((map float_of_Z vs, Tracker64.of_state g'), c')) /\
    Forall small (fst (fst (Tracker.nexts n rpm minuteMs g c))).
Proof.
  induction n as [|n IH]; intros g c H.
  - split; [reflexivity | constructor].
  - cbn [Tracker64.in_range] in H. apply andb_true_iff in H as [H1 Hn].
    destruct (next_exact g c H1) as [E Hs].
    rewrite nexts64_S, nexts_S, E.
    destruct (Tracker.next rpm minuteMs g c) as [[v g1] c1].
    cbn [fst snd] in *. destruct (IH g1 c1 Hn) as [En Hsn]. rewrite En.
    destruct (Tracker.nexts n rpm minuteMs g1 c1) as [[vs g2] c2].
    cbn [fst snd] in *. split; [reflexivity | constructor; assumption].
Qed.

(** In a run of at least one call the arguments are in range. *)
Lemma in_range_arguments (n : nat) (g : Tracker.GenState) (c : Clock) :
  Tracker64.in_range (S n) rpm minuteMs g c = true ->
  small rpm /\ small minuteMs.
Proof.
  cbn [Tracker64.in_range]. unfold Tracker64.call_in_range.
  destruct (Tracker.resume g c) as [l c1]. cbn [forallb].
  rewrite !andb_true_iff, !smallb_small. tauto.
Qed.

(** The readings compared with the window start are compared alike. *)
Lemma read_after_start_exact (g : Tracker.GenState) (c : Clock) :
  Tracker64.call_in_range rpm minuteMs g c = true ->
  Tracker64.read_after_start (Tracker64.of_state g) c =
  Tracker.read_after_start g c.
Proof.
  unfold Tracker64.call_in_range, Tracker64.read_after_start,
    Tracker.read_after_start.
  rewrite resume64_exact. destruct (Tracker.resume g c) as [l c1].
  cbn [forallb]. rewrite !andb_true_iff, !smallb_small.
  intros (_ & _ & Hs & _ & _ & Hn & _).
  unfold Tracker64.Date_now, Date_now.
  cbn [Tracker64.of_locals Tracker64.start]. apply leb_exact; assumption.
Qed.

Lemma reads_after_start_exact (n : nat) :
  forall (g : Tracker.GenState) (c : Clock),
    Tracker64.in_range n rpm minuteMs g c = true ->
    Tracker64.reads_after_start n (float_of_Z rpm) (float_of_Z minuteMs)
      (Tracker64.of_state g) c =
    Tracker.reads_after_start n rpm minuteMs g c.
Proof.
  induction n as [|n IH]; intros g c H; [reflexivity |].
  cbn [Tracker64.in_range] in H. apply andb_true_iff in H as [H1 Hn].
  cbn [Tracker64.reads_after_start Tracker.reads_after_start].
  rewrite (read_after_start_exact g c H1).
  destruct (next_exact g c H1) as [E _]. rewrite E.
  destruct (Tracker.next rpm minuteMs g c) as [[v g1] c1].
  cbn [fst snd] in *. rewrite (IH g1 c1 Hn). reflexivity.
Qed.

(** The numbers of a run are in range when the window length and the
    readings the run takes (at most two in a call, and one more in the
    first call of a new generator) are below 2^52 and not negative, the
    limit is below 2^53, and the count cannot reach 2^53 in the calls
    made. *)
Lemma bounded_in_range (n : nat) :
  small rpm -> 0 <= minuteMs < 2 ^ 52 ->
  Z.of_nat n + 2 < 2 ^ 53 ->
  forall (g : Tracker.GenState) (c : Clock),
    (forall i : nat,
        (cursor c <= i < cursor c + 2 * n +
                         match g with
                         | Tracker.SuspendedStart => 1
                         | Tracker.SuspendedYield _ => 0
                         end)%nat ->
        0 <= readings c i < 2 ^ 52) ->
    match g with
    | Tracker.SuspendedStart => True
    | Tracker.SuspendedYield l =>
        0 <= Tracker.start l < 2 ^ 52 /\
        0 <= Tracker.count l /\ Tracker.count l + Z.of_nat n < 2 ^ 53
    end ->
    Tracker64.in_range n rpm minuteMs g c = true.
Proof.
  intros Hr Hw. induction n as [|n IH]; intros Hn g c Hc Hg; [reflexivity |].
  assert (Hl : exists l c1,
             Tracker.resume g c = (l, c1) /\ readings c1 = readings c /\
             (cursor c <= cursor c1)%nat /\
             (forall i : nat,
                 (cursor c1 <= i < cursor c1 + 2 * S n)%nat ->
                 0 <= readings c i < 2 ^ 52) /\
             0 <= Tracker.start l < 2 ^ 52 /\
             0 <= Tracker.count l /\
             Tracker.count l + Z.of_nat (S n) < 2 ^ 53).
  { destruct g as [|l].
    - eexists _, _. split; [reflexivity |].
      cbn [tick readings cursor Tracker.start Tracker.count].
      split; [reflexivity |]. split; [lia |].
      split; [intros i Hi; apply Hc; lia |].
      split; [apply Hc; lia | lia].
    - eexists _, _. split; [reflexivity |]. split; [reflexivity |].
      split; [lia |]. split; [intros i Hi; apply Hc; lia | exact Hg]. }
  destruct Hl as (l & c1 & El & Ec & Hcur & Hc1 & Hs & Hc0 & Hcn).
  pose proof (Hc1 (cursor c1) ltac:(lia)) as Hnow.
  pose proof (Hc1 (S (cursor c1)) ltac:(lia)) as Hnow'.
  cbn [Tracker64.in_range]. apply andb_true_iff. split.
  - unfold Tracker64.call_in_range. rewrite El, Ec. cbn [forallb].
    rewrite !andb_true_iff, !smallb_small. unfold small in *.
    repeat split; try lia.
    destruct (Tracker.start l + minuteMs - readings c (cursor c1) <? 0); lia.
  - rewrite next_eq, El, body_eq, Ec. cbv zeta.
    destruct (Tracker.start l + minuteMs - readings c (cursor c1) <? 0);
      cbn [snd fst]; apply IH; try lia;
      cbn [Tracker.start Tracker.count tick readings cursor];
      try lia; rewrite Ec; intros i Hi; apply Hc1; lia.
Qed.

End Tracker64Facts.

Section Tracker64Claims.

Import Int53 Whole.

Variables rpm minuteMs : Z.

Lemma Forall_leb_exact (w : Z) (vs : list Z) :
  small w -> Forall small vs -> Forall (fun v => v <= w) vs ->
  Forall (fun v => (v <=? float_of_Z w)%float = true) (map float_of_Z vs).
Proof.
  intros Hw Hs. induction Hs as [|v vs Hv Hs IH]; intros Hle; cbn.
  - constructor.
  - inversion Hle; subst. constructor; [| apply IH; assumption].
    rewrite leb_exact by assumption. apply Z.leb_le. assumption.
Qed.

(** C10, amended: when the numbers of the run are whole numbers below
    2^53 in absolute value, so that no sum or difference rounds, and
    every reading the generator compares with the window start is at
    least the reading the window start was set from, every value the
    binary64 generator yields is at most the window length (for a window
    length that is not negative). *)
Theorem yields_at_most_window (n : nat) (g : Tracker.GenState) (c : Clock) :
  0 <= minuteMs ->
  Tracker64.in_range n rpm minuteMs g c = true ->
  Tracker64.reads_after_start n (float_of_Z rpm) (float_of_Z minuteMs)
    (Tracker64.of_state g) c = true ->
  Forall (fun v => (v <=? float_of_Z minuteMs)%float = true)
    (fst (fst (Tracker64.nexts n (float_of_Z rpm) (float_of_Z minuteMs)
                 (Tracker64.of_state g) c))).
Proof.
  intros HW Hin Hreads.
  destruct n as [|n]; [constructor |].
  destruct (in_range_arguments rpm minuteMs n g c Hin) as [_ Sw].
  rewrite (reads_after_start_exact rpm minuteMs (S n) g c Hin) in Hreads.
  destruct (nexts_exact rpm minuteMs (S n) g c Hin) as [E Hs]. rewrite E.
  pose proof (nexts_at_most_window rpm minuteMs (S n) g c HW Hreads) as Hle.
  destruct (Tracker.nexts (S n) rpm minuteMs g c) as [[vs g'] c'].
  cbn [fst snd] in *. apply Forall_leb_exact; assumption.
Qed.

(** X1: while the readings stay within the window no call resets it, as
    long as the numbers of the run are below 2^53: [n] successive calls
    of the binary64 generator leave the window start where it was and
    the count raised by [n], and call number [i] (from 0) yields 0 as
    long as the count it reaches does not exceed the limit, and from then
    on the time that is left to the end of the window. *)
Theorem calls_within_a_window (n : nat) (l : Tracker.Locals) (c : Clock) :
  Tracker64.in_range n rpm minuteMs (Tracker.SuspendedYield l) c = true ->
  Window.within minuteMs l c n = true ->
  snd (fst (Tracker64.nexts n (float_of_Z rpm) (float_of_Z minuteMs)
              (Tracker64.SuspendedYield (Tracker64.of_locals l)) c)) =
    Tracker64.SuspendedYield
      {| Tracker64.start := float_of_Z (Tracker.start l);
         Tracker64.count := float_of_Z (Tracker.count l + Z.of_nat n) |} /\
  cursor (snd (Tracker64.nexts n (float_of_Z rpm) (float_of_Z minuteMs)
                 (Tracker64.SuspendedYield (Tracker64.of_locals l)) c)) =
    (cursor c + n)%nat /\
  length (fst (fst (Tracker64.nexts n (float_of_Z rpm) (float_of_Z minuteMs)
                      (Tracker64.SuspendedYield (Tracker64.of_locals l)) c))) =
    n /\
  forall i : nat,
    (i < n)%nat ->
    nth i (fst (fst (Tracker64.nexts n (float_of_Z rpm) (float_of_Z minuteMs)
                       (Tracker64.SuspendedYield (Tracker64.of_locals l)) c)))
        0%float =
    if Tracker.count l + Z.of_nat i + 1 >? rpm
    then float_of_Z
           (Tracker.start l + minuteMs - readings c (cursor c + i)%nat)
    else 0%float.
Proof.
  intros Hin Hw.
  destruct (nexts_exact rpm minuteMs n (Tracker.SuspendedYield l) c Hin)
    as [E _].
  cbn [Tracker64.of_state] in E. rewrite E.
  destruct (nexts_in_window rpm minuteMs n l c Hw) as (Hg & Hc & Hlen & Hnth).
  destruct (Tracker.nexts n rpm minuteMs (Tracker.SuspendedYield l) c)
    as [[vs g'] c'].
  cbn [fst snd] in *. subst g'.
  split; [reflexivity |]. split; [exact Hc |].
  split; [rewrite length_map; exact Hlen |].
  intros i Hi. change 0%float with (float_of_Z 0) at 1.
  rewrite map_nth, (Hnth i Hi).
  destruct (Tracker.count l + Z.of_nat i + 1 >? rpm); reflexivity.
Qed.

(** X2: as long as the readings of a new generator's calls are not later
    than one window after its first reading, and the numbers of the run
    are below 2^53, the calls of the binary64 generator before call
    number [rpm] yield 0, and call number [rpm] and every later one
    yield the time from their reading to the end of that window. *)
Theorem new_generator_first_window (n : nat) (c : Clock) :
  Tracker64.in_range n rpm minuteMs Tracker.SuspendedStart c = true ->
  Window.within minuteMs
    {| Tracker.start := readings c (cursor c); Tracker.count := 1 |}
    (tick c) n = true ->
  forall i : nat,
    (i < n)%nat ->
    nth i (fst (fst (Tracker64.nexts n (float_of_Z rpm) (float_of_Z minuteMs)
                       Tracker64.SuspendedStart c))) 0%float =
    if Z.of_nat (S i) >=? rpm
    then float_of_Z
           (readings c (cursor c) + minuteMs - readings c (S (cursor c) + i)%nat)
    else 0%float.
Proof.
  intros Hin Hw i Hi.
  destruct (nexts_exact rpm minuteMs n Tracker.SuspendedStart c Hin) as [E _].
  cbn [Tracker64.of_state] in E. rewrite E.
  pose proof (nexts_first_window rpm minuteMs n c Hw i Hi) as Hnth.
  destruct (Tracker.nexts n rpm minuteMs Tracker.SuspendedStart c)
    as [[vs g'] c'].
  cbn [fst snd] in *. change 0%float with (float_of_Z 0) at 1.
  rewrite map_nth, Hnth.
  destruct (Z.of_nat (S i) >=? rpm); reflexivity.
Qed.

(** X18: a run whose numbers are whole and below 2^53 in absolute value
    is computed without rounding: the binary64 generator yields the
    values, ends in the state, and takes the readings of the generator
    on the integers. *)
Theorem binary64_run_is_exact (n : nat) (g : Tracker.GenState) (c : Clock) :
  Tracker64.in_range n rpm minuteMs g c = true ->
  Tracker64.nexts n (float_of_Z rpm) (float_of_Z minuteMs)
    (Tracker64.of_state g) c =
  ((map float_of_Z (fst (fst (Tracker.nexts n rpm minuteMs g c))),
    Tracker64.of_state (snd (fst (Tracker.nexts n rpm minuteMs g c)))),
   snd (Tracker.nexts n rpm minuteMs g c)).
Proof.
  intros Hin. destruct (nexts_exact rpm minuteMs n g c Hin) as [E _].
  rewrite E.
  destruct (Tracker.nexts n rpm minuteMs g c) as [[vs g'] c']. reflexivity.
Qed.

(** X19: on a clock that never goes back, a new binary64 generator with
    a window length that is not negative and below 2^52 and a limit
    below 2^53 never yields more than the window length, in any run of
    fewer than 2^53 - 2 calls whose readings (at most [2 * n + 1] of
    them) are not negative and below 2^52. *)
Theorem new_generator_yields_at_most_window (n : nat) (now : nat -> Z) :
  small rpm -> 0 <= minuteMs < 2 ^ 52 ->
  Z.of_nat n + 2 < 2 ^ 53 ->
  (forall i : nat, (i < 2 * n + 1)%nat -> 0 <= now i < 2 ^ 52) ->
  (forall i j : nat, (i <= j)%nat -> now i <= now j) ->
  Forall (fun v => (v <=? float_of_Z minuteMs)%float = true)
    (fst (fst (Tracker64.nexts n (float_of_Z rpm) (float_of_Z minuteMs)
                 Tracker64.SuspendedStart
                 {| readings := now; cursor := 0 |}))).
Proof.
  intros Hr Hw Hn Hnow Hmono.
  assert (Hin : Tracker64.in_range n rpm minuteMs Tracker.SuspendedStart
                  {| readings := now; cursor := 0 |} = true).
  { apply bounded_in_range; try assumption; [| exact I].
    cbn [readings cursor]. intros i Hi. apply Hnow. lia. }
  pose proof (monotone_reads_after_start rpm minuteMs now Hmono n
                Tracker.SuspendedStart 0%nat I) as Hreads.
  destruct n as [|n]; [constructor |].
  destruct (nexts_exact rpm minuteMs (S n) Tracker.SuspendedStart _ Hin)
    as [E Hs].
  change Tracker64.SuspendedStart
    with (Tracker64.of_state Tracker.SuspendedStart).
  rewrite E.
  pose proof (nexts_at_most_window rpm minuteMs (S n) Tracker.SuspendedStart _
                ltac:(lia) Hreads) as Hle.
  destruct (Tracker.nexts (S n) rpm minuteMs Tracker.SuspendedStart _)
    as [[vs g'] c'].
  cbn [fst snd] in *. apply Forall_leb_exact; try assumption.
  unfold small in *. lia.
Qed.

End Tracker64Claims.

(** C10, as stated, fails on binary64.  With a limit of 1 and a window
    length of 2^53 - 1, on a clock that stands still at 1762000000000,
    the window end [start + minuteMs] rounds up, and the first call of a
    new generator yields 2^53, which is more than the window length. *)
Lemma window_below_2_53_is_exceeded :
  Tracker64.reads_after_start 1 1 9007199254740991 Tracker64.SuspendedStart
    (stopped_clock 1762000000000) = true
  /\
  fst (fst (Tracker64.nexts 1 1 9007199254740991 Tracker64.SuspendedStart
              (stopped_clock 1762000000000))) = [9007199254740992%float]
  /\
  ~ Forall (fun v => (v <=? 9007199254740991)%float = true)
      (fst (fst (Tracker64.nexts 1 1 9007199254740991 Tracker64.SuspendedStart
                   (stopped_clock 1762000000000)))).
Proof.
  split; [vm_compute; reflexivity |].
  split; [vm_compute; reflexivity |].
  intros H. vm_compute in H. inversion H as [|v vs Hv Hvs]; subst.
  discriminate Hv.
Qed.

(** Seven calls with a limit of 3 and a window of 250 ms, the fifth of
    them 260 ms after the first. *)
Lemma yields_at_most_window_witness :
  Forall (fun v => (v <=? Whole.float_of_Z 250)%float = true)
    (fst (fst (Tracker64.nexts 7 (Whole.float_of_Z 3) (Whole.float_of_Z 250)
                 (Tracker64.of_state Tracker.SuspendedStart)
                 (clock_of [1000; 1000; 1001; 1002; 1003; 1260; 1260; 1261; 1262])))).
Proof.
  apply yields_at_most_window; [lia | reflexivity | reflexivity].
Defined.

(** Three calls after the second call of a window of 250 ms that began at
    1000, with a limit of 3. *)
Lemma calls_within_a_window_witness :
  snd (fst (Tracker64.nexts 3 (Whole.float_of_Z 3) (Whole.float_of_Z 250)
              (Tracker64.SuspendedYield
                 (Tracker64.of_locals
                    {| Tracker.start := 1000; Tracker.count := 2 |}))
              (clock_of [1010; 1020; 1030]))) =
  Tracker64.SuspendedYield
    {| Tracker64.start := Whole.float_of_Z 1000;
       Tracker64.count := Whole.float_of_Z (2 + Z.of_nat 3) |}.
Proof.
  apply (proj1 (calls_within_a_window 3 250 3
                  {| Tracker.start := 1000; Tracker.count := 2 |}
                  (clock_of [1010; 1020; 1030]) eq_refl eq_refl)).
Defined.

(** A new generator with a limit of 3 and a window of 250 ms, called
    four times within 30 ms: the third call is the first to wait. *)
Lemma new_generator_first_window_witness :
  nth 2 (fst (fst (Tracker64.nexts 4 (Whole.float_of_Z 3)
                     (Whole.float_of_Z 250) Tracker64.SuspendedStart
                     (clock_of [1000; 1000; 1010; 1020; 1030])))) 0%float =
  if Z.of_nat 3 >=? 3 then Whole.float_of_Z (1000 + 250 - 1020) else 0%float.
Proof.
  apply (new_generator_first_window 3 250 4
           (clock_of [1000; 1000; 1010; 1020; 1030]) eq_refl eq_refl 2%nat).
  lia.
Defined.

(** The run of the tests: a limit of 3 and a window of 250 ms. *)
Lemma binary64_run_is_exact_witness :
  Tracker64.nexts 4 (Whole.float_of_Z 3) (Whole.float_of_Z 250)
    (Tracker64.of_state Tracker.SuspendedStart)
    (clock_of [1000; 1000; 1010; 1020; 1030]) =
  ((map Whole.float_of_Z
      (fst (fst (Tracker.nexts 4 3 250 Tracker.SuspendedStart
                   (clock_of [1000; 1000; 1010; 1020; 1030])))),
    Tracker64.of_state
      (snd (fst (Tracker.nexts 4 3 250 Tracker.SuspendedStart
                   (clock_of [1000; 1000; 1010; 1020; 1030]))))),
   snd (Tracker.nexts 4 3 250 Tracker.SuspendedStart
          (clock_of [1000; 1000; 1010; 1020; 1030]))).
Proof. apply binary64_run_is_exact. reflexivity. Defined.

(** The default window and a limit of 3 on a clock that advances by one
    millisecond at every reading from 1762000000000 on. *)
Lemma new_generator_yields_at_most_window_witness :
  Forall (fun v => (v <=? Whole.float_of_Z 60000)%float = true)
    (fst (fst (Tracker64.nexts 5 (Whole.float_of_Z 3) (Whole.float_of_Z 60000)
                 Tracker64.SuspendedStart
                 {| readings := fun i => 1762000000000 + Z.of_nat i;
                    cursor := 0 |}))).
Proof.
  apply (new_generator_yields_at_most_window 3 60000 5
           (fun i => 1762000000000 + Z.of_nat i)).
  - unfold Int53.small. cbn. lia.
  - lia.
  - cbn. lia.
  - intros i Hi. cbn beta. lia.
  - intros i j Hij. cbn beta. lia.
Defined.

(** ** roundMiliseconds on whole multiples *)

Section WholeMultiples.

Import Int53 Whole.

(** Rounding to a whole multiple [n] is a fixed point of itself as soon
    as the rounded quotient [z] times [n] is below 2^53: the product and
    the quotient of the second application are exact. *)
Lemma round_fixed (x : float) (n z : Z) :
  n <> 0 -> small n -> small (z * n) ->
  whole (F64.Math_round (x / float_of_Z n)) z ->
  F64.roundMiliseconds (F64.roundMiliseconds x (float_of_Z n)) (float_of_Z n) =
  F64.roundMiliseconds x (float_of_Z n).
Proof.
  intros Hn Sn Hzn Hq. unfold F64.roundMiliseconds at 1 3.
  destruct (Z.eq_dec z 0) as [-> | Hz].
  - assert (Z0 : is_zero (F64.Math_round (x / float_of_Z n))).
    { destruct Hq as [-> | [_ ->]]; [left | right]; reflexivity. }
    unfold F64.roundMiliseconds.
    rewrite (zero_mul_div _ n Z0 Hn Sn), (Math_round_zero _ Z0). reflexivity.
  - destruct Hq as [Hq | [? _]]; [| contradiction].
    unfold F64.roundMiliseconds. rewrite Hq.
    rewrite (mul_exact z n Hz Hn Hzn), (div_exact z n Hz Hn Hzn).
    rewrite Math_round_whole by exact (small_mul_l z n Hn Hzn).
    apply mul_exact; assumption.
Qed.

(** The rounded value is a number, and equal to itself. *)
Lemma round_is_number (x : float) (n z : Z) :
  n <> 0 -> small n -> small (z * n) ->
  whole (F64.Math_round (x / float_of_Z n)) z ->
  (F64.roundMiliseconds x (float_of_Z n) =? F64.roundMiliseconds x (float_of_Z n))%float
  = true.
Proof.
  intros Hn Sn Hzn Hq. unfold F64.roundMiliseconds.
  destruct (Z.eq_dec z 0) as [-> | Hz].
  - assert (Z0 : is_zero (F64.Math_round (x / float_of_Z n))).
    { destruct Hq as [-> | [_ ->]]; [left | right]; reflexivity. }
    destruct (zero_mul _ n Z0 Hn Sn) as [-> | ->]; reflexivity.
  - destruct Hq as [Hq | [? _]]; [| contradiction].
    rewrite Hq, (mul_exact z n Hz Hn Hzn), eqb_exact by assumption.
    apply Z.eqb_refl.
Qed.

End WholeMultiples.

(** C8, amended: [roundMiliseconds(666.666, 5)] is 665, and on binary64
    rounding to a whole multiple [n] that is not zero is idempotent at
    every value [x], whole or not, at which the rounded quotient [z]
    times [n] is below 2^53 in absolute value: the second application
    returns the very same number. *)
Theorem roundMiliseconds_idempotent_when_exact :
  F64.roundMiliseconds F64.lit_666_666 5 = 665%float
  /\
  forall (x : float) (n z : Z),
    n <> 0 -> Int53.small n -> Int53.small (z * n) ->
    Int53.whole (F64.Math_round (x / Whole.float_of_Z n)) z ->
    F64.roundMiliseconds (F64.roundMiliseconds x (Whole.float_of_Z n))
      (Whole.float_of_Z n) =
    F64.roundMiliseconds x (Whole.float_of_Z n)
    /\
    F64.idempotent_at x (Whole.float_of_Z n) = true.
Proof.
  split; [vm_compute; reflexivity |].
  intros x n z Hn Sn Hzn Hq. split.
  - exact (round_fixed x n z Hn Sn Hzn Hq).
  - unfold F64.idempotent_at. rewrite (round_fixed x n z Hn Sn Hzn Hq).
    exact (round_is_number x n z Hn Sn Hzn Hq).
Qed.

(** The value of the documentation's example: 666.666 divided by 5
    rounds to 133. *)
Lemma roundMiliseconds_idempotent_witness :
  F64.roundMiliseconds
    (F64.roundMiliseconds F64.lit_666_666 (Whole.float_of_Z 5))
    (Whole.float_of_Z 5) =
  F64.roundMiliseconds F64.lit_666_666 (Whole.float_of_Z 5)
  /\
  F64.idempotent_at F64.lit_666_666 (Whole.float_of_Z 5) = true.
Proof.
  apply (proj2 roundMiliseconds_idempotent_when_exact F64.lit_666_666 5 133).
  - discriminate.
  - reflexivity.
  - reflexivity.
  - left. vm_compute. reflexivity.
Defined.
